(** * MiniDB SQL front end: tokenizer, recursive-descent parser and catalog

    A shallow embedding of [sql_compiler/lexer.py], [sql_compiler/parser.py],
    [sql_compiler/ast_nodes.py] and [sql_compiler/catalog.py], followed by the
    properties established about them.

    Conventions of the embedding.
    - Text is ASCII: a Python [str] is a [string] whose characters are code
      points below 128, and the predicates [str.isspace], [str.isdigit],
      [str.isalpha], [str.isalnum] and [str.upper] are the restrictions of
      the Python ones to that range.  Code points from 128 on are outside the
      model (they belong to none of the classes here).
    - A scanner or parser object is its cursor: the lexer state is the part
      of [source] from [position] on together with [line] and [column]; the
      parser state is [current_token] together with the tokens after
      [position].
    - A raised exception is a constructor of the result type. *)

From Stdlib Require Import Ascii String ZArith Lia Bool Sorted.
From stdpp Require Import gmap strings list fin_maps.

(** ** Python text primitives, restricted to ASCII *)

(** A string holds code points below 256.  The methods [str.isspace],
    [str.isdigit], [str.isalpha], [str.isalnum] and [str.upper] are given
    here on the ASCII code points, where they are what Python computes; on
    the others Python follows the Unicode tables, which are not part of this
    development.  The scanner below stops with [Lexer.Unmodelled] where it
    would have to classify a character outside ASCII. *)

Module Text.

Definition code (c : ascii) : nat := nat_of_ascii c.

Definition is_ascii (c : ascii) : bool := (code c <? 128)%nat.

Definition between (lo hi : nat) (c : ascii) : bool :=
  (lo <=? code c)%nat && (code c <=? hi)%nat.

(** [str.isspace]: TAB, LF, VT, FF, CR, the separators FS, GS, RS, US and
    the space. *)
Definition isspace (c : ascii) : bool :=
  between 9 13 c || between 28 32 c.

Definition isdigit (c : ascii) : bool := between 48 57 c.

Definition isupper (c : ascii) : bool := between 65 90 c.

Definition islower (c : ascii) : bool := between 97 122 c.

Definition isalpha (c : ascii) : bool := isupper c || islower c.

Definition isalnum (c : ascii) : bool := isalpha c || isdigit c.

Definition upper_char (c : ascii) : ascii :=
  if islower c then ascii_of_nat (code c - 32) else c.

(** [str.upper] *)
Fixpoint upper (s : string) : string :=
  match s with
  | EmptyString => EmptyString
  | String c s' => String (upper_char c) (upper s')
  end.

(** [s + c] for a one-character [c] *)
Definition snoc (s : string) (c : ascii) : string :=
  s +:+ String c EmptyString.

(** [x in xs] for a list of strings *)
Definition str_in (x : string) (xs : list string) : bool :=
  existsb (String.eqb x) xs.

(** The whitespace that [int] skips around a number: TAB, LF, VT, FF, CR
    and the space, and the next-line and no-break-space characters (code
    points 133 and 160), which the conversion reads as spaces.  The
    separators FS, GS, RS and US, which [str.isspace] accepts, are not
    skipped. *)
Definition int_space (c : ascii) : bool :=
  between 9 13 c || (code c =? 32)%nat || (code c =? 133)%nat
  || (code c =? 160)%nat.

Fixpoint lstrip (s : string) : string :=
  match s with
  | String c s' => if int_space c then lstrip s' else s
  | EmptyString => EmptyString
  end.

Fixpoint rstrip (s : string) : string :=
  match s with
  | EmptyString => EmptyString
  | String c s' =>
      match rstrip s' with
      | EmptyString => if int_space c then EmptyString else String c EmptyString
      | r => String c r
      end
  end.

Definition digit_val (c : ascii) : Z := Z.of_nat (code c - 48).

(** The digits of a decimal literal after its sign: a digit, then digits
    each optionally preceded by one underscore.  [acc] is the value read so
    far; [prev_digit] tells whether the previous character was a digit. *)
Fixpoint int_digits (s : string) (acc : Z) (prev_digit : bool) : option Z :=
  match s with
  | EmptyString => if prev_digit then Some acc else None
  | String c s' =>
      if isdigit c then int_digits s' (acc * 10 + digit_val c)%Z true
      else if (Ascii.eqb c "_") && prev_digit then int_digits s' acc false
      else None
  end.

Fixpoint count_digits (s : string) : nat :=
  match s with
  | EmptyString => 0
  | String c s' => (if isdigit c then 1 else 0) + count_digits s'
  end.

(** The interpreter's default limit on the number of digits of a string
    converted to an integer. *)
Definition int_max_str_digits : nat := 4300.

(** The number after the sign; more digits than the limit is an error. *)
Definition int_number (d : string) : option Z :=
  if (count_digits d <=? int_max_str_digits)%nat
  then int_digits d 0 false
  else None.

(** [int(s)] in base 10; [None] is [ValueError]. *)
Definition int (s : string) : option Z :=
  match rstrip (lstrip s) with
  | String "+" d => int_number d
  | String "-" d => option_map Z.opp (int_number d)
  | d => int_number d
  end.

End Text.

(** ** Tokens ([lexer.py]) *)

Inductive TokenType : Type :=
  | KEYWORD | IDENTIFIER | INTEGER | STRING
  | EQUALS | NOT_EQUALS | LESS_THAN | GREATER_THAN | LESS_EQUALS | GREATER_EQUALS
  | COMMA | SEMICOLON | LEFT_PAREN | RIGHT_PAREN
  | EOF | ERROR.

Definition TokenType_eqb (a b : TokenType) : bool :=
  match a, b with
  | KEYWORD, KEYWORD | IDENTIFIER, IDENTIFIER | INTEGER, INTEGER
  | STRING, STRING | EQUALS, EQUALS | NOT_EQUALS, NOT_EQUALS
  | LESS_THAN, LESS_THAN | GREATER_THAN, GREATER_THAN
  | LESS_EQUALS, LESS_EQUALS | GREATER_EQUALS, GREATER_EQUALS
  | COMMA, COMMA | SEMICOLON, SEMICOLON | LEFT_PAREN, LEFT_PAREN
  | RIGHT_PAREN, RIGHT_PAREN | EOF, EOF | ERROR, ERROR => true
  | _, _ => false
  end.

Record Token : Type := mkToken {
  tok_type : TokenType;
  tok_value : string;
  tok_line : nat;
  tok_column : nat
}.

(** [LexerError(message, line, column)] *)
Record LexerError : Type := mkLexerError {
  le_message : string;
  le_line : nat;
  le_column : nat
}.

(** ** The tokenizer ([SQLLexer]) *)

Module Lexer.

Import Text.

Definition KEYWORDS : list string :=
  ["CREATE"; "TABLE"; "INSERT"; "INTO"; "SELECT"; "FROM"; "WHERE";
   "VALUES"; "DELETE"; "INT"; "INTEGER"; "VARCHAR"; "CHAR"; "AND"; "OR";
   "NOT"].

Definition OPERATORS (op : string) : option TokenType :=
  if String.eqb op "=" then Some EQUALS
  else if String.eqb op "!=" then Some NOT_EQUALS
  else if String.eqb op "<>" then Some NOT_EQUALS
  else if String.eqb op "<" then Some LESS_THAN
  else if String.eqb op ">" then Some GREATER_THAN
  else if String.eqb op "<=" then Some LESS_EQUALS
  else if String.eqb op ">=" then Some GREATER_EQUALS
  else None.

Definition DELIMITERS (c : ascii) : option TokenType :=
  if Ascii.eqb c "," then Some COMMA
  else if Ascii.eqb c ";" then Some SEMICOLON
  else if Ascii.eqb c "(" then Some LEFT_PAREN
  else if Ascii.eqb c ")" then Some RIGHT_PAREN
  else None.

(** The scan cursor: [src] is [source[position:]]. *)
Record State : Type := mkState {
  src : string;
  line : nat;
  column : nat
}.

Definition init (source : string) : State :=
  {| src := source; line := 1; column := 1 |}.

Definition current_char (st : State) : option ascii :=
  match src st with
  | String c _ => Some c
  | EmptyString => None
  end.

Definition peek_char (st : State) : option ascii :=
  match src st with
  | String _ (String c _) => Some c
  | _ => None
  end.

(** The position update of [advance] for a consumed character. *)
Definition step_pos (c : ascii) (l col : nat) : nat * nat :=
  if Ascii.eqb c "010" then (l + 1, 1)%nat else (l, col + 1)%nat.

Definition advance (st : State) : option ascii * State :=
  match src st with
  | EmptyString => (None, st)
  | String c rest =>
      let '(l, col) := step_pos c (line st) (column st) in
      (Some c, {| src := rest; line := l; column := col |})
  end.

(** [skip_whitespace]: the loop runs over the remaining source.  This loop
    and those of [read_number] and [read_identifier] stop at a character
    outside ASCII, which Python may take for a space, a digit or a letter;
    the scan that follows then answers [Unmodelled]. *)
Fixpoint skip_whitespace_from (s : string) (l col : nat) : State :=
  match s with
  | String c rest =>
      if isspace c
      then let '(l', col') := step_pos c l col in
           skip_whitespace_from rest l' col'
      else {| src := s; line := l; column := col |}
  | EmptyString => {| src := s; line := l; column := col |}
  end.

Definition skip_whitespace (st : State) : State :=
  skip_whitespace_from (src st) (line st) (column st).

(** The [while] loop of [read_string]; it stops at the closing quote or at
    the end of the source.  After a backslash the next character is
    consumed too (if there is one). *)
Fixpoint read_string_loop (quote_char : ascii) (s : string) (l col : nat)
    (value : string) : string * State :=
  match s with
  | EmptyString => (value, {| src := s; line := l; column := col |})
  | String char rest =>
      if Ascii.eqb char quote_char
      then (value, {| src := s; line := l; column := col |})
      else
        let '(l1, col1) := step_pos char l col in
        if Ascii.eqb char "\" then
          match rest with
          | EmptyString =>
              read_string_loop quote_char rest l1 col1 value
          | String next_char rest' =>
              let '(l2, col2) := step_pos next_char l1 col1 in
              let value' :=
                if Ascii.eqb next_char "n" then snoc value "010"
                else if Ascii.eqb next_char "t" then snoc value "009"
                else if Ascii.eqb next_char "r" then snoc value "013"
                else if Ascii.eqb next_char "\" then snoc value "\"
                else if Ascii.eqb next_char quote_char
                     then snoc value quote_char
                else snoc value next_char in
              read_string_loop quote_char rest' l2 col2 value'
          end
        else read_string_loop quote_char rest l1 col1 (snoc value char)
  end.

(** [read_string]: called with a quote as current character. *)
Definition read_string (st : State) : (string * State) + LexerError :=
  match src st with
  | EmptyString => inr (mkLexerError "Unterminated string literal"
                          (line st) (column st))
  | String quote_char rest =>
      let start_line := line st in
      let start_column := column st in
      let '(l1, col1) := step_pos quote_char (line st) (column st) in
      let '(value, st') := read_string_loop quote_char rest l1 col1 "" in
      match current_char st' with
      | None => inr (mkLexerError "Unterminated string literal"
                       start_line start_column)
      | Some _ => inl (value, snd (advance st'))
      end
  end.

Fixpoint read_number_from (s : string) (l col : nat) (value : string)
    : string * State :=
  match s with
  | String c rest =>
      if isdigit c
      then let '(l', col') := step_pos c l col in
           read_number_from rest l' col' (snoc value c)
      else (value, {| src := s; line := l; column := col |})
  | EmptyString => (value, {| src := s; line := l; column := col |})
  end.

Definition read_number (st : State) : string * State :=
  read_number_from (src st) (line st) (column st) "".

Fixpoint read_identifier_from (s : string) (l col : nat) (value : string)
    : string * State :=
  match s with
  | String c rest =>
      if isalnum c || Ascii.eqb c "_"
      then let '(l', col') := step_pos c l col in
           read_identifier_from rest l' col' (snoc value c)
      else (value, {| src := s; line := l; column := col |})
  | EmptyString => (value, {| src := s; line := l; column := col |})
  end.

Definition read_identifier (st : State) : string * State :=
  read_identifier_from (src st) (line st) (column st) "".

(** [read_operator]: called with one of [=!<>] as current character. *)
Definition read_operator (st : State) : string * State :=
  match src st with
  | EmptyString => ("", st)
  | String char _ =>
      let two := snd (advance (snd (advance st))) in
      let one := snd (advance st) in
      if Ascii.eqb char "!" || Ascii.eqb char "<" || Ascii.eqb char ">"
      then
        match peek_char st with
        | Some next_char =>
            if Ascii.eqb next_char "="
            then (String char "=", two)
            else if Ascii.eqb char "<" && Ascii.eqb next_char ">"
            then ("<>", two)
            else (String char "", one)
        | None => (String char "", one)
        end
      else (String char "", one)
  end.

(** The line comment loop: up to, not including, the line feed. *)
Fixpoint skip_line_comment (s : string) (l col : nat) : State :=
  match s with
  | String c rest =>
      if Ascii.eqb c "010"
      then {| src := s; line := l; column := col |}
      else let '(l', col') := step_pos c l col in
           skip_line_comment rest l' col'
  | EmptyString => {| src := s; line := l; column := col |}
  end.

(** The block comment loop, entered after the opening [/*]: [Some st] when
    the closing [*/] was consumed ([break]), [None] when the source ran out
    (the [else] of the [while]). *)
Fixpoint skip_block_comment (s : string) (l col : nat) : option State :=
  match s with
  | EmptyString => None
  | String c rest =>
      let '(l1, col1) := step_pos c l col in
      match rest with
      | String c2 rest' =>
          if Ascii.eqb c "*" && Ascii.eqb c2 "/"
          then let '(l2, col2) := step_pos c2 l1 col1 in
               Some {| src := rest'; line := l2; column := col2 |}
          else skip_block_comment rest l1 col1
      | EmptyString => skip_block_comment rest l1 col1
      end
  end.

(** What [tokenize] leaves behind: the returned list, or the raised error
    together with [self.tokens] at that moment. *)
Inductive Result : Type :=
  | Tokens (tokens : list Token)
  | Raised (e : LexerError) (tokens : list Token)
  | Unmodelled
  | OutOfFuel.

(** The body of the outer [try]: the main [while] loop and the final EOF
    token.  [fuel] bounds the number of iterations.  A character outside
    ASCII that is met between tokens falls through every test of the
    embedding to the last branch; Python may skip it as whitespace or start a
    number or a word with it, so that branch answers [Unmodelled] for it and
    raises for an ASCII character only. *)
Fixpoint scan (fuel : nat) (st : State) (tokens : list Token) : Result :=
  let finish (st : State) :=
    Tokens (tokens ++ [mkToken EOF "" (line st) (column st)]) in
  match fuel with
  | O => OutOfFuel
  | S fuel' =>
    match src st with
    | EmptyString => finish st
    | String _ _ =>
      let st := skip_whitespace st in
      match src st with
      | EmptyString => finish st
      | String char after =>
        let current_line := line st in
        let current_column := column st in
        if Ascii.eqb char "034" || Ascii.eqb char "'" then
          match read_string st with
          | inl (value, st') =>
              scan fuel' st'
                (tokens ++ [mkToken STRING value current_line current_column])
          | inr lex_error =>
              Raised lex_error
                (tokens ++ [mkToken ERROR (le_message lex_error)
                              current_line current_column])
          end
        else if isdigit char then
          let '(value, st') := read_number st in
          scan fuel' st'
            (tokens ++ [mkToken INTEGER value current_line current_column])
        else if isalpha char || Ascii.eqb char "_" then
          let '(value, st') := read_identifier st in
          let token_type :=
            if str_in (upper value) KEYWORDS then KEYWORD else IDENTIFIER in
          scan fuel' st'
            (tokens ++ [mkToken token_type (upper value)
                          current_line current_column])
        else if Ascii.eqb char "=" || Ascii.eqb char "!"
                || Ascii.eqb char "<" || Ascii.eqb char ">" then
          let '(operator, st') := read_operator st in
          match OPERATORS operator with
          | Some token_type =>
              scan fuel' st'
                (tokens ++ [mkToken token_type operator
                              current_line current_column])
          | None =>
              Raised (mkLexerError ("Unknown operator '" +:+ operator +:+ "'")
                        current_line current_column) tokens
          end
        else
          match DELIMITERS char with
          | Some token_type =>
              scan fuel' (snd (advance st))
                (tokens ++ [mkToken token_type (String char "")
                              current_line current_column])
          | None =>
            if Ascii.eqb char "-" && bool_decide (peek_char st = Some "-"%char)
            then scan fuel' (skip_line_comment (src st) (line st) (column st))
                   tokens
            else if Ascii.eqb char "/" && bool_decide (peek_char st = Some "*"%char)
            then
              let st2 := snd (advance (snd (advance st))) in
              match skip_block_comment (src st2) (line st2) (column st2) with
              | Some st' => scan fuel' st' tokens
              | None =>
                  Raised (mkLexerError "Unterminated comment"
                            current_line current_column) tokens
              end
            else if is_ascii char then
              Raised (mkLexerError
                        ("Unexpected character '" +:+ String char "'")
                        current_line current_column) tokens
            else Unmodelled
          end
      end
    end
  end.

(** [tokenize]: the outer handler appends an error token built from the
    exception and raises it again.  Every iteration of the main loop
    consumes a character, so [S (length source)] iterations suffice. *)
Definition tokenize (source : string) : Result :=
  match scan (S (String.length source)) (init source) [] with
  | Raised e tokens =>
      Raised e (tokens ++ [mkToken ERROR (le_message e) (le_line e) (le_column e)])
  | r => r
  end.

End Lexer.

(** ** Abstract syntax ([ast_nodes.py]) *)

(** [DataType]: [size] is [None] or an integer. *)
Record DataType : Type := mkDataType {
  dt_type_name : string;
  dt_size : option Z;
  dt_line : nat;
  dt_column : nat
}.

(** [DataType.__init__] stores [type_name.upper()]. *)
Definition DataType_init (type_name : string) (size : option Z)
    (l col : nat) : DataType :=
  mkDataType (Text.upper type_name) size l col.

Record ColumnDef : Type := mkColumnDef {
  cd_name : string;
  cd_data_type : DataType;
  cd_line : nat;
  cd_column : nat
}.

(** The payload of a [Literal]: a Python [int] or [str]. *)
Inductive Value : Type :=
  | VInt (z : Z)
  | VStr (s : string).

Inductive Expression : Type :=
  | Identifier (name : string) (l col : nat)
  | Literal (value : Value) (data_type : string) (l col : nat)
  | BinaryExpression (left : Expression) (operator : string)
      (right : Expression) (l col : nat).

(** What the [column] attribute of a [CreateTableStatement] holds.  The class
    declares an integer; [parse_create_table] passes it what its local name
    [column] is bound to when the statement ends, and the loop over the
    column definitions binds that name to each [ColumnDef] in turn. *)
Inductive ColumnAttr : Type :=
  | ColumnNumber (n : nat)
  | ColumnNode (c : ColumnDef).

(** Modelled from the spec: the class [UpdateStatement], which [parser.py]
    imports and builds but [ast_nodes.py] does not define.  Its fields are
    those of the specification's data model (table name, ordered sequence of
    column and value pairs, optional where-clause, position), which are also
    the arguments [parse_update] passes to it.  The other statement nodes are
    the classes of [ast_nodes.py]. *)
Inductive Statement : Type :=
  | CreateTableStatement (table_name : string) (columns : list ColumnDef)
      (l : nat) (col : ColumnAttr)
  | InsertStatement (table_name : string) (columns : option (list string))
      (values : list (list Expression)) (l col : nat)
  | SelectStatement (select_list : list Expression) (from_table : string)
      (where_clause : option Expression) (l col : nat)
  | DeleteStatement (table_name : string) (where_clause : option Expression)
      (l col : nat)
  | UpdateStatement (table_name : string)
      (assignments : list (string * Expression))
      (where_clause : option Expression) (l col : nat).

Record SQLProgram : Type := mkSQLProgram {
  statements : list Statement;
  prog_line : nat;
  prog_column : nat
}.

(** ** The parser ([SQLParser]) *)

Module Parser.

Import Text.

(** The parser cursor: [rest] is [tokens[position+1:]].  [current_token] is
    [tokens[position]] until [advance] runs past the last token, and the
    synthetic end-of-input token [eof_token] from then on. *)
Record State : Type := mkState {
  current_token : Token;
  rest : list Token
}.

(** What a parser method can raise: [ParseError(message, token, expected)],
    the [ValueError] of [int], the [AttributeError] of a method applied to a
    parser built from an empty token list.  [OutOfFuel] is the loop bound of
    the embedding running out; [parse_total] shows it does not happen. *)
Inductive Failure : Type :=
  | ParseError (message : string) (token : Token) (expected : option string)
  | ValueError
  | AttributeError
  | OutOfFuel.

Inductive Outcome (A : Type) : Type :=
  | Ok (a : A) (st : State)
  | Fail (e : Failure).
Arguments Ok {A} a st.
Arguments Fail {A} e.

Definition M (A : Type) : Type := State -> Outcome A.

Definition ret {A} (a : A) : M A := fun st => Ok a st.

Definition bind {A B} (m : M A) (k : A -> M B) : M B :=
  fun st =>
    match m st with
    | Ok a st' => k a st'
    | Fail e => Fail e
    end.

Definition raise {A} (e : Failure) : M A := fun _ => Fail e.

Notation "'let*' x ':=' m 'in' k" := (bind m (fun x => k))
  (at level 10, x binder, m at level 100, k at level 200).

(** [if c: a else: b], where [c] reads the parser state *)
Definition cond {A} (c : State -> bool) (a b : M A) : M A :=
  fun st => if c st then a st else b st.

(** [self.current_token] *)
Definition current : M Token := fun st => Ok (current_token st) st.

Definition eof_token : Token := mkToken EOF "" 0 0.

Definition advance : M unit :=
  fun st =>
    match rest st with
    | t :: ts => Ok tt (mkState t ts)
    | [] => Ok tt (mkState eof_token [])
    end.

(** [self.match], given the token types to accept *)
Definition match_ (token_types : list TokenType) (st : State) : bool :=
  existsb (TokenType_eqb (tok_type (current_token st))) token_types.

(** [token_type.name] *)
Definition TokenType_name (t : TokenType) : string :=
  match t with
  | KEYWORD => "KEYWORD" | IDENTIFIER => "IDENTIFIER" | INTEGER => "INTEGER"
  | STRING => "STRING" | EQUALS => "EQUALS" | NOT_EQUALS => "NOT_EQUALS"
  | LESS_THAN => "LESS_THAN" | GREATER_THAN => "GREATER_THAN"
  | LESS_EQUALS => "LESS_EQUALS" | GREATER_EQUALS => "GREATER_EQUALS"
  | COMMA => "COMMA" | SEMICOLON => "SEMICOLON"
  | LEFT_PAREN => "LEFT_PAREN" | RIGHT_PAREN => "RIGHT_PAREN"
  | EOF => "EOF" | ERROR => "ERROR"
  end.

Definition consume (token_type : TokenType) (error_message : string)
    : M Token :=
  cond (match_ [token_type])
    (let* token := current in
     let* _ := advance in
     ret token)
    (fun st =>
       let expected := TokenType_name token_type in
       let message :=
         if String.eqb error_message "" then "Expected " +:+ expected
         else error_message in
       Fail (ParseError message (current_token st) (Some expected))).

(** [self.match(KEYWORD) and self.current_token.value.upper() == kw] *)
Definition is_keyword (kw : string) (st : State) : bool :=
  match_ [KEYWORD] st && String.eqb (upper (tok_value (current_token st))) kw.

(** [int(token.value)] *)
Definition to_int (s : string) : M Z :=
  match int s with
  | Some z => ret z
  | None => raise ValueError
  end.

Definition parse_literal : M Expression :=
  cond (match_ [INTEGER])
    (let* tok := current in
     let* value := to_int (tok_value tok) in
     let* _ := advance in
     ret (Literal (VInt value) "INT" (tok_line tok) (tok_column tok)))
    (cond (match_ [STRING])
       (let* tok := current in
        let* _ := advance in
        ret (Literal (VStr (tok_value tok)) "STRING"
               (tok_line tok) (tok_column tok)))
       (let* tok := current in
        raise (ParseError "Expected literal value" tok None))).

Definition parse_primary : M Expression :=
  cond (match_ [IDENTIFIER])
    (let* tok := current in
     let* _ := advance in
     ret (Identifier (tok_value tok) (tok_line tok) (tok_column tok)))
    (cond (match_ [INTEGER; STRING])
       parse_literal
       (let* tok := current in
        raise (ParseError "Expected identifier or literal" tok None))).

Definition parse_comparison : M Expression :=
  let* lhs := parse_primary in
  cond (match_ [EQUALS; NOT_EQUALS; LESS_THAN; GREATER_THAN;
                LESS_EQUALS; GREATER_EQUALS])
    (let* tok := current in
     let* _ := advance in
     let* rhs := parse_primary in
     ret (BinaryExpression lhs (tok_value tok) rhs
            (tok_line tok) (tok_column tok)))
    (ret lhs).

Definition parse_expression : M Expression := parse_comparison.

(** The optional [WHERE] clause shared by SELECT, DELETE and UPDATE. *)
Definition parse_where : M (option Expression) :=
  cond (is_keyword "WHERE")
    (let* _ := advance in
     let* e := parse_expression in
     ret (Some e))
    (ret None).

Definition parse_data_type : M DataType :=
  let* start := current in
  cond (match_ [KEYWORD])
    (let type_name := upper (tok_value start) in
     let* _ := advance in
     let* size :=
       cond (fun st => str_in type_name ["VARCHAR"; "CHAR"]
                       && match_ [LEFT_PAREN] st)
         (let* _ := advance in
          let* size_token := consume INTEGER "Expected size after '('" in
          let* size := to_int (tok_value size_token) in
          let* _ := consume RIGHT_PAREN "Expected ')' after size" in
          ret (Some size))
         (ret None) in
     ret (DataType_init type_name size (tok_line start) (tok_column start)))
    (raise (ParseError "Expected data type" start
              (Some "INT, INTEGER, VARCHAR, or CHAR"))).

Definition parse_column_definition : M ColumnDef :=
  let* start := current in
  let* name_token := consume IDENTIFIER "Expected column name" in
  let* data_type := parse_data_type in
  ret (mkColumnDef (tok_value name_token) data_type
         (tok_line start) (tok_column start)).

(** The number of iterations allowed to a loop entered in state [st]; every
    iteration takes a token off [rest] or ends the loop. *)
Definition fuel_of (st : State) : nat := S (S (length (rest st))).

(** [while not self.match(RIGHT_PAREN)] of [parse_create_table].  Each
    iteration binds the local name [column] to the definition it appends, so
    after the loop that name holds the last element of the list, if any. *)
Fixpoint column_list (fuel : nat) (columns : list ColumnDef)
    : M (list ColumnDef) :=
  match fuel with
  | O => raise OutOfFuel
  | S fuel' =>
      cond (match_ [RIGHT_PAREN])
        (ret columns)
        (let* column := parse_column_definition in
         let columns := columns ++ [column] in
         cond (match_ [COMMA])
           (let* _ := advance in column_list fuel' columns)
           (cond (match_ [RIGHT_PAREN])
              (column_list fuel' columns)
              (let* tok := current in
               raise (ParseError "Expected ',' or ')' in column list" tok
                        (Some ", or )")))))
  end.

Definition parse_create_table : M Statement :=
  let* start := current in
  let* _ := consume KEYWORD "Expected CREATE" in
  let* _ :=
    cond (is_keyword "TABLE")
      advance
      (let* tok := current in
       raise (ParseError "Expected TABLE after CREATE" tok (Some "TABLE"))) in
  let* name_token := consume IDENTIFIER "Expected table name" in
  let* _ := consume LEFT_PAREN "Expected '(' after table name" in
  let* columns := (fun st => column_list (fuel_of st) [] st) in
  let* _ :=
    match columns with
    | [] =>
        let* tok := current in
        raise (ParseError "Table must have at least one column" tok None)
    | _ :: _ => ret tt
    end in
  let* _ := consume RIGHT_PAREN "Expected ')' after column list" in
  let column :=
    match last columns with
    | Some column => ColumnNode column
    | None => ColumnNumber (tok_column start)
    end in
  ret (CreateTableStatement (tok_value name_token) columns
         (tok_line start) column).

(** [while not self.match(RIGHT_PAREN)] over the column names of
    [parse_insert] *)
Fixpoint insert_columns (fuel : nat) (columns : list string)
    : M (list string) :=
  match fuel with
  | O => raise OutOfFuel
  | S fuel' =>
      cond (match_ [RIGHT_PAREN])
        (ret columns)
        (let* name_token := consume IDENTIFIER "Expected column name" in
         let columns := columns ++ [tok_value name_token] in
         cond (match_ [COMMA])
           (let* _ := advance in insert_columns fuel' columns)
           (cond (match_ [RIGHT_PAREN])
              (insert_columns fuel' columns)
              (let* tok := current in
               raise (ParseError "Expected ',' or ')' in column list" tok
                        (Some ", or )")))))
  end.

(** [while not self.match(RIGHT_PAREN)] over the values of [parse_insert] *)
Fixpoint insert_values (fuel : nat) (current_row : list Expression)
    : M (list Expression) :=
  match fuel with
  | O => raise OutOfFuel
  | S fuel' =>
      cond (match_ [RIGHT_PAREN])
        (ret current_row)
        (let* value := parse_literal in
         let current_row := current_row ++ [value] in
         cond (match_ [COMMA])
           (let* _ := advance in insert_values fuel' current_row)
           (cond (match_ [RIGHT_PAREN])
              (insert_values fuel' current_row)
              (let* tok := current in
               raise (ParseError "Expected ',' or ')' in value list" tok
                        (Some ", or )")))))
  end.

Definition parse_insert : M Statement :=
  let* start := current in
  let* _ := consume KEYWORD "Expected INSERT" in
  let* _ :=
    cond (is_keyword "INTO")
      advance
      (let* tok := current in
       raise (ParseError "Expected INTO after INSERT" tok (Some "INTO"))) in
  let* name_token := consume IDENTIFIER "Expected table name" in
  let* columns :=
    cond (match_ [LEFT_PAREN])
      (let* _ := advance in
       let* columns := (fun st => insert_columns (fuel_of st) [] st) in
       let* _ := consume RIGHT_PAREN "Expected ')' after column list" in
       ret (Some columns))
      (ret None) in
  let* _ :=
    cond (is_keyword "VALUES")
      advance
      (let* tok := current in
       raise (ParseError "Expected VALUES" tok (Some "VALUES"))) in
  let values : list (list Expression) := [] in
  let* _ := consume LEFT_PAREN "Expected '(' after VALUES" in
  let* current_row := (fun st => insert_values (fuel_of st) [] st) in
  let* _ := consume RIGHT_PAREN "Expected ')' after values" in
  let values := values ++ [current_row] in
  ret (InsertStatement (tok_value name_token) columns values
         (tok_line start) (tok_column start)).

(** [while True] of [parse_select] *)
Fixpoint select_items (fuel : nat) (select_list : list Expression)
    : M (list Expression) :=
  match fuel with
  | O => raise OutOfFuel
  | S fuel' =>
      let* tok := current in
      let* select_list :=
        cond (match_ [IDENTIFIER])
          (let* _ := advance in
           ret (select_list ++
                [Identifier (tok_value tok) (tok_line tok) (tok_column tok)]))
          (raise (ParseError "Expected column name in SELECT list" tok None)) in
      cond (match_ [COMMA])
        (let* _ := advance in select_items fuel' select_list)
        (ret select_list)
  end.

Definition parse_select : M Statement :=
  let* start := current in
  let* _ := consume KEYWORD "Expected SELECT" in
  let* select_list := (fun st => select_items (fuel_of st) [] st) in
  let* _ :=
    cond (is_keyword "FROM")
      advance
      (let* tok := current in
       raise (ParseError "Expected FROM" tok (Some "FROM"))) in
  let* from_token := consume IDENTIFIER "Expected table name after FROM" in
  let* where_clause := parse_where in
  ret (SelectStatement select_list (tok_value from_token) where_clause
         (tok_line start) (tok_column start)).

Definition parse_delete : M Statement :=
  let* start := current in
  let* _ := consume KEYWORD "Expected DELETE" in
  let* _ :=
    cond (is_keyword "FROM")
      advance
      (let* tok := current in
       raise (ParseError "Expected FROM after DELETE" tok (Some "FROM"))) in
  let* name_token := consume IDENTIFIER "Expected table name" in
  let* where_clause := parse_where in
  ret (DeleteStatement (tok_value name_token) where_clause
         (tok_line start) (tok_column start)).

(** [while True] of [parse_update] *)
Fixpoint update_assignments (fuel : nat)
    (assignments : list (string * Expression))
    : M (list (string * Expression)) :=
  match fuel with
  | O => raise OutOfFuel
  | S fuel' =>
      let* name_token := consume IDENTIFIER "Expected column name" in
      let* _ := consume EQUALS "Expected '=' after column name" in
      let* value := parse_primary in
      let assignments := assignments ++ [(tok_value name_token, value)] in
      cond (match_ [COMMA])
        (let* _ := advance in update_assignments fuel' assignments)
        (ret assignments)
  end.

Definition parse_update : M Statement :=
  let* start := current in
  let* _ := consume KEYWORD "Expected UPDATE" in
  let* name_token := consume IDENTIFIER "Expected table name" in
  let* _ :=
    cond (is_keyword "SET")
      advance
      (let* tok := current in
       raise (ParseError "Expected SET after table name" tok (Some "SET"))) in
  let* assignments := (fun st => update_assignments (fuel_of st) [] st) in
  let* where_clause := parse_where in
  ret (UpdateStatement (tok_value name_token) assignments where_clause
         (tok_line start) (tok_column start)).

(** [parse_statement].  Its first test, [if not self.current_token], is on a
    value that is never [None] once the parser holds a token. *)
Definition parse_statement : M Statement :=
  let* tok := current in
  cond (match_ [KEYWORD])
    (let keyword := upper (tok_value tok) in
     if String.eqb keyword "CREATE" then parse_create_table
     else if String.eqb keyword "INSERT" then parse_insert
     else if String.eqb keyword "SELECT" then parse_select
     else if String.eqb keyword "DELETE" then parse_delete
     else if String.eqb keyword "UPDATE" then parse_update
     else raise (ParseError ("Unsupported statement: " +:+ keyword) tok None))
    (raise (ParseError "Expected statement" tok
              (Some "CREATE, INSERT, SELECT, DELETE, or UPDATE"))).

(** [while not self.match(EOF)] of [parse] *)
Fixpoint program (fuel : nat) (stmts : list Statement)
    : M (list Statement) :=
  match fuel with
  | O => raise OutOfFuel
  | S fuel' =>
      cond (match_ [EOF])
        (ret stmts)
        (let* tok := current in
         cond (match_ [ERROR])
           (raise (ParseError ("Lexical error: " +:+ tok_value tok) tok None))
           (let* stmt := parse_statement in
            let stmts := stmts ++ [stmt] in
            let* _ := cond (match_ [SEMICOLON]) advance (ret tt) in
            program fuel' stmts))
  end.

(** [SQLParser(tokens).parse()]: the program, or what was raised.  With an
    empty token list [current_token] is [None], the loop test holds and
    reading [current_token.type] raises [AttributeError]. *)
Definition parse (tokens : list Token) : Failure + SQLProgram :=
  match tokens with
  | [] => inl AttributeError
  | t :: ts =>
      let st := mkState t ts in
      match program (fuel_of st) [] st with
      | Ok stmts _ => inr (mkSQLProgram stmts 1 1)
      | Fail e => inl e
      end
  end.

End Parser.

(** [SQLParser(SQLLexer(source).tokenize()).parse()] *)
Inductive CompileResult : Type :=
  | Parsed (program : SQLProgram)
  | LexFailed (e : LexerError) (tokens : list Token)
  | ParseFailed (e : Parser.Failure)
  | LexUnmodelled
  | LexOutOfFuel.

Definition compile (source : string) : CompileResult :=
  match Lexer.tokenize source with
  | Lexer.Tokens tokens =>
      match Parser.parse tokens with
      | inr p => Parsed p
      | inl e => ParseFailed e
      end
  | Lexer.Raised e tokens => LexFailed e tokens
  | Lexer.Unmodelled => LexUnmodelled
  | Lexer.OutOfFuel => LexOutOfFuel
  end.

(** ** The catalog ([catalog.py]) *)

Module Catalog.

Import Text.

Record ColumnInfo : Type := mkColumnInfo {
  col_name : string;
  col_data_type : string;
  col_size : option Z;
  col_is_nullable : bool
}.

Record TableInfo : Type := mkTableInfo {
  tbl_name : string;
  tbl_columns : list ColumnInfo
}.

(** [self._tables]: a dictionary from upper-cased table name to its
    [TableInfo]. *)
Abbreviation Tables := (gmap string TableInfo).

(** [TableInfo.get_column] *)
Fixpoint get_column (columns : list ColumnInfo) (column_name : string)
    : option ColumnInfo :=
  match columns with
  | [] => None
  | col :: cols =>
      if String.eqb (upper (col_name col)) (upper column_name)
      then Some col
      else get_column cols column_name
  end.

(** The mutating methods return their result and the new [_tables]. *)
Definition create_table (tables : Tables) (table_name : string)
    (columns : list ColumnInfo) : bool * Tables :=
  let table_key := upper table_name in
  match tables !! table_key with
  | Some _ => (false, tables)
  | None => (true, <[table_key := mkTableInfo table_name columns]> tables)
  end.

Definition drop_table (tables : Tables) (table_name : string)
    : bool * Tables :=
  let table_key := upper table_name in
  match tables !! table_key with
  | None => (false, tables)
  | Some _ => (true, delete table_key tables)
  end.

Definition table_exists (tables : Tables) (table_name : string) : bool :=
  bool_decide (is_Some (tables !! upper table_name)).

Definition get_table_info (tables : Tables) (table_name : string)
    : option TableInfo :=
  tables !! upper table_name.

Definition column_exists (tables : Tables) (table_name column_name : string)
    : bool :=
  match get_table_info tables table_name with
  | None => false
  | Some table_info =>
      bool_decide (is_Some (get_column (tbl_columns table_info) column_name))
  end.

Definition get_column_info (tables : Tables) (table_name column_name : string)
    : option ColumnInfo :=
  match get_table_info tables table_name with
  | Some table_info => get_column (tbl_columns table_info) column_name
  | None => None
  end.

(** The [for] loop of [validate_columns]: the first requested name whose
    upper-casing is not among [table_columns] ends the call. *)
Fixpoint check_columns (table_name : string) (table_columns : list string)
    (column_names : list string) : bool * string :=
  match column_names with
  | [] => (true, "")
  | col_name :: names =>
      if negb (str_in (upper col_name) table_columns)
      then (false, "Column '" +:+ col_name +:+ "' does not exist in table '"
                     +:+ table_name +:+ "'")
      else check_columns table_name table_columns names
  end.

Definition validate_columns (tables : Tables) (table_name : string)
    (column_names : list string) : bool * string :=
  match get_table_info tables table_name with
  | None => (false, "Table '" +:+ table_name +:+ "' does not exist")
  | Some table_info =>
      let table_columns :=
        map (fun col => upper (col_name col)) (tbl_columns table_info) in
      check_columns table_name table_columns column_names
  end.

Definition get_column_type (tables : Tables) (table_name column_name : string)
    : option string :=
  option_map col_data_type (get_column_info tables table_name column_name).

Definition clear (tables : Tables) : Tables := ∅.

(** The exported form of a column: a dictionary with the keys [name],
    [data_type], [size] and [is_nullable].  [from_dict] reads the last two
    with [dict.get], so they may be missing: the outer [option] of
    [cr_size] and the [option] of [cr_is_nullable] are the presence of the
    key. *)
Record ColumnRecord : Type := mkColumnRecord {
  cr_name : string;
  cr_data_type : string;
  cr_size : option (option Z);
  cr_is_nullable : option bool
}.

(** The exported form of a table: the keys [name] and [columns]. *)
Record TableRecord : Type := mkTableRecord {
  tr_name : string;
  tr_columns : list ColumnRecord
}.

Definition export_column (col : ColumnInfo) : ColumnRecord :=
  {| cr_name := col_name col;
     cr_data_type := col_data_type col;
     cr_size := Some (col_size col);
     cr_is_nullable := Some (col_is_nullable col) |}.

Definition export_table (table_info : TableInfo) : TableRecord :=
  {| tr_name := tbl_name table_info;
     tr_columns := map export_column (tbl_columns table_info) |}.

(** [to_dict]: one entry of [result] per item of [_tables]. *)
Definition to_dict (tables : Tables) : gmap string TableRecord :=
  map_fold (fun table_name table_info result =>
              <[table_name := export_table table_info]> result)
    ∅ tables.

Definition import_column (col_data : ColumnRecord) : ColumnInfo :=
  {| col_name := cr_name col_data;
     col_data_type := cr_data_type col_data;
     col_size := default None (cr_size col_data);
     col_is_nullable := default true (cr_is_nullable col_data) |}.

Definition import_table (table_data : TableRecord) : TableInfo :=
  {| tbl_name := tr_name table_data;
     tbl_columns := map import_column (tr_columns table_data) |}.

(** [from_dict]: [_tables] is cleared, then receives one entry per item of
    [data]. *)
Definition from_dict (tables : Tables) (data : gmap string TableRecord)
    : Tables :=
  map_fold (fun table_name table_data acc =>
              <[table_name := import_table table_data]> acc)
    (clear tables) data.

End Catalog.

(** ** Predicates used in the statements *)

(** The number of characters the scanner has not consumed yet. *)
Definition lexer_remaining (st : Lexer.State) : nat :=
  String.length (Lexer.src st).

(** A text that upper-casing leaves unchanged. *)
Definition is_upper (s : string) : Prop := Text.upper s = s.

(** An identifier token whose lexeme is upper-cased. *)
Definition ident_upper (t : Token) : Prop :=
  tok_type t = IDENTIFIER -> is_upper (tok_value t).

Fixpoint expr_names_upper (e : Expression) : Prop :=
  match e with
  | Identifier name _ _ => is_upper name
  | Literal _ _ _ _ => True
  | BinaryExpression lhs _ rhs _ _ =>
      expr_names_upper lhs /\ expr_names_upper rhs
  end.

Definition where_names_upper (w : option Expression) : Prop :=
  match w with
  | Some e => expr_names_upper e
  | None => True
  end.

(** Every table name, column name and identifier of a statement is
    upper-cased. *)
Definition stmt_names_upper (s : Statement) : Prop :=
  match s with
  | CreateTableStatement table_name columns _ _ =>
      is_upper table_name /\ Forall (fun c => is_upper (cd_name c)) columns
  | InsertStatement table_name columns values _ _ =>
      is_upper table_name
      /\ match columns with
         | Some names => Forall is_upper names
         | None => True
         end
      /\ Forall (Forall expr_names_upper) values
  | SelectStatement select_list from_table where_clause _ _ =>
      Forall expr_names_upper select_list
      /\ is_upper from_table /\ where_names_upper where_clause
  | DeleteStatement table_name where_clause _ _ =>
      is_upper table_name /\ where_names_upper where_clause
  | UpdateStatement table_name assignments where_clause _ _ =>
      is_upper table_name
      /\ Forall (fun a => is_upper (fst a) /\ expr_names_upper (snd a))
           assignments
      /\ where_names_upper where_clause
  end.

(** An INSERT node holds exactly one value row. *)
Definition insert_single_row (s : Statement) : Prop :=
  match s with
  | InsertStatement _ _ values _ _ => exists row, values = [row]
  | _ => True
  end.

(** A CREATE TABLE node holds at least one column. *)
Definition create_has_column (s : Statement) : Prop :=
  match s with
  | CreateTableStatement _ columns _ _ => columns <> []
  | _ => True
  end.

Definition is_eof (t : Token) : bool := TokenType_eqb (tok_type t) EOF.

(** The tokens the parser can still consume: those after the cursor, and the
    current one unless it is an end-of-input token. *)
Definition parser_measure (st : Parser.State) : nat :=
  length (Parser.rest st)
  + (if is_eof (Parser.current_token st) then 0 else 1).

(** The identifier tokens at and after the cursor are upper-cased. *)
Definition state_upper (st : Parser.State) : Prop :=
  ident_upper (Parser.current_token st)
  /\ Forall ident_upper (Parser.rest st).

(** The states in which the main loop of [parse] asks for a statement,
    with the statements collected so far: the initial state, and the state
    reached from such a state by one statement and its optional semicolon. *)
Inductive statement_start (tokens : list Token)
    : Parser.State -> list Statement -> Prop :=
  | start_first t ts :
      tokens = t :: ts ->
      statement_start tokens (Parser.mkState t ts) []
  | start_next st stmts stmt st1 st2 :
      statement_start tokens st stmts ->
      Parser.parse_statement st = Parser.Ok stmt st1 ->
      Parser.cond (Parser.match_ [SEMICOLON]) Parser.advance
        (Parser.ret tt) st1 = Parser.Ok tt st2 ->
      statement_start tokens st2 (stmts ++ [stmt]).

(** A catalog with one table, created as [Student], on which the catalog
    statements are tried. *)
Definition student_catalog : gmap string Catalog.TableInfo :=
  {["STUDENT" :=
      Catalog.mkTableInfo "Student"
        [Catalog.mkColumnInfo "id" "INT" None true;
         Catalog.mkColumnInfo "Name" "VARCHAR" (Some 50%Z) true]]}.

(** The keys of a catalog are the upper-cased display names of its tables. *)
Definition keys_normalised (tables : gmap string Catalog.TableInfo) : Prop :=
  forall k table_info,
    tables !! k = Some table_info ->
    k = Text.upper (Catalog.tbl_name table_info).

(** An exported table whose columns all carry the two optional keys. *)
Definition record_complete (r : Catalog.TableRecord) : Prop :=
  Forall (fun c => is_Some (Catalog.cr_size c)
                   /\ is_Some (Catalog.cr_is_nullable c))
    (Catalog.tr_columns r).

(** [p] holds of every character of [s]. *)
Fixpoint string_forall (p : ascii -> bool) (s : string) : bool :=
  match s with
  | EmptyString => true
  | String c s' => p c && string_forall p s'
  end.

(** The characters of an upper-cased word: capital letters, digits and the
    underscore. *)
Definition word_char (c : ascii) : bool :=
  Text.isupper c || Text.isdigit c || Ascii.eqb c "_".

(** A non-empty run of word characters that does not start with a digit. *)
Definition word_shape (s : string) : Prop :=
  match s with
  | EmptyString => False
  | String c s' =>
      (Text.isupper c || Ascii.eqb c "_") && string_forall word_char s' = true
  end.

(** What the scanner guarantees of a token other than the closing ones: a
    keyword is a word of the keyword set, an identifier is an upper-cased
    word outside it, an integer is a non-empty run of digits, an operator or
    delimiter carries the lexeme its type stands for.  End-of-input and
    error tokens are not among them. *)
Definition token_well_formed (t : Token) : Prop :=
  match tok_type t with
  | KEYWORD => Text.str_in (tok_value t) Lexer.KEYWORDS = true
  | IDENTIFIER =>
      Text.str_in (tok_value t) Lexer.KEYWORDS = false
      /\ word_shape (tok_value t)
  | INTEGER =>
      tok_value t <> "" /\ string_forall Text.isdigit (tok_value t) = true
  | STRING => True
  | EQUALS | NOT_EQUALS | LESS_THAN | GREATER_THAN | LESS_EQUALS
  | GREATER_EQUALS =>
      Lexer.OPERATORS (tok_value t) = Some (tok_type t)
  | COMMA | SEMICOLON | LEFT_PAREN | RIGHT_PAREN =>
      exists c, tok_value t = String c "" /\ Lexer.DELIMITERS c = Some (tok_type t)
  | EOF | ERROR => False
  end.

(** The error token the handlers of [tokenize] build from an exception. *)
Definition error_token (e : LexerError) : Token :=
  mkToken ERROR (le_message e) (le_line e) (le_column e).

(** The four lexical errors. *)
Definition lexical_error_kind (message : string) : Prop :=
  message = "Unterminated string literal"
  \/ message = "Unterminated comment"
  \/ message = "Unknown operator '!'"
  \/ exists c,
       Text.is_ascii c = true
       /\ message = "Unexpected character '" +:+ String c "'".

(** What the scan loop leaves in the token list. *)
Definition scan_outcome (r : Lexer.Result) : Prop :=
  match r with
  | Lexer.Tokens tokens =>
      exists body l col,
        tokens = body ++ [mkToken EOF "" l col]
        /\ Forall token_well_formed body
  | Lexer.Raised e tokens =>
      lexical_error_kind (le_message e)
      /\ Forall token_well_formed
           (if String.eqb (le_message e) "Unterminated string literal"
            then removelast tokens else tokens)
      /\ (if String.eqb (le_message e) "Unterminated string literal"
          then exists body, tokens = body ++ [error_token e]
          else True)
  | Lexer.Unmodelled | Lexer.OutOfFuel => True
  end.

(** Source positions in reading order: by line, then by column. *)
Definition pos_lt (l1 c1 l2 c2 : nat) : Prop :=
  l1 < l2 \/ (l1 = l2 /\ c1 < c2).

Definition pos_le (l1 c1 l2 c2 : nat) : Prop :=
  l1 < l2 \/ (l1 = l2 /\ c1 <= c2).

(** Token [a] starts before token [b]. *)
Definition token_before (a b : Token) : Prop :=
  pos_lt (tok_line a) (tok_column a) (tok_line b) (tok_column b).

(** Lines and columns are counted from 1. *)
Definition token_one_based (t : Token) : Prop :=
  1 <= tok_line t /\ 1 <= tok_column t.

(** The shapes of the nodes the parser builds.  A literal carries the type
    tag of its payload; a primary is an identifier or a literal; a comparison
    is a primary or one binary expression over two primaries. *)
Definition literal_shape (e : Expression) : Prop :=
  match e with
  | Literal (VInt _) data_type _ _ => data_type = "INT"
  | Literal (VStr _) data_type _ _ => data_type = "STRING"
  | _ => False
  end.

Definition identifier_shape (e : Expression) : Prop :=
  match e with
  | Identifier _ _ _ => True
  | _ => False
  end.

Definition primary_shape (e : Expression) : Prop :=
  identifier_shape e \/ literal_shape e.

Definition comparison_shape (e : Expression) : Prop :=
  match e with
  | BinaryExpression lhs _ rhs _ _ => primary_shape lhs /\ primary_shape rhs
  | _ => primary_shape e
  end.

Definition where_shape (w : option Expression) : Prop :=
  match w with
  | Some e => comparison_shape e
  | None => True
  end.

(** A data type has an upper-cased name, and a size only when that name is
    VARCHAR or CHAR. *)
Definition data_type_shape (d : DataType) : Prop :=
  is_upper (dt_type_name d)
  /\ (dt_size d <> None ->
      Text.str_in (dt_type_name d) ["VARCHAR"; "CHAR"] = true).

Definition stmt_shape (s : Statement) : Prop :=
  match s with
  | CreateTableStatement _ columns _ _ =>
      Forall (fun c => data_type_shape (cd_data_type c)) columns
  | InsertStatement _ _ values _ _ => Forall (Forall literal_shape) values
  | SelectStatement select_list _ where_clause _ _ =>
      Forall identifier_shape select_list /\ where_shape where_clause
  | DeleteStatement _ where_clause _ _ => where_shape where_clause
  | UpdateStatement _ assignments where_clause _ _ =>
      Forall (fun a => primary_shape (snd a)) assignments
      /\ where_shape where_clause
  end.
(** An error token occurs in [l] before every end-of-input token. *)
Fixpoint error_ahead (l : list Token) : bool :=
  match l with
  | [] => false
  | t :: l' =>
      match tok_type t with
      | ERROR => true
      | EOF => false
      | _ => error_ahead l'
      end
  end.

(** The same of the tokens at and after the cursor of the parser. *)
Definition error_pending (st : Parser.State) : bool :=
  error_ahead (Parser.current_token st :: Parser.rest st).
(** The keyword a statement node stands for, and the two attributes of its
    position. *)
Definition stmt_keyword (s : Statement) : string :=
  match s with
  | CreateTableStatement _ _ _ _ => "CREATE"
  | InsertStatement _ _ _ _ _ => "INSERT"
  | SelectStatement _ _ _ _ _ => "SELECT"
  | DeleteStatement _ _ _ _ => "DELETE"
  | UpdateStatement _ _ _ _ _ => "UPDATE"
  end.

Definition stmt_line (s : Statement) : nat :=
  match s with
  | CreateTableStatement _ _ l _ | InsertStatement _ _ _ l _
  | SelectStatement _ _ _ l _ | DeleteStatement _ _ l _
  | UpdateStatement _ _ _ l _ => l
  end.

Definition stmt_column (s : Statement) : ColumnAttr :=
  match s with
  | CreateTableStatement _ _ _ col => col
  | InsertStatement _ _ _ _ col | SelectStatement _ _ _ _ col
  | DeleteStatement _ _ _ col | UpdateStatement _ _ _ _ col =>
      ColumnNumber col
  end.

(** A character that continues an identifier. *)
Definition ident_char (c : ascii) : bool :=
  Text.isalnum c || Ascii.eqb c "_".








(** The characters of the source that the scanner has not read yet are a
    suffix of the source. *)
Definition suffix_of (s source : string) : Prop :=
  exists pre, source = pre +:+ s.

(** * Properties *)

(** ** Upper-casing *)

Lemma upper_char_idem (c : ascii) :
  Text.upper_char (Text.upper_char c) = Text.upper_char c.
Proof. destruct c as [[] [] [] [] [] [] [] []]; reflexivity. Qed.

Lemma upper_idem (s : string) : Text.upper (Text.upper s) = Text.upper s.
Proof.
  induction s as [|c s IH]; simpl; [reflexivity|].
  rewrite upper_char_idem, IH. reflexivity.
Qed.

(** ** The tokenizer terminates within its loop bound *)

Section LexerProgress.

Import Lexer.

Local Abbreviation remaining := lexer_remaining.

Ltac rem_lia := unfold lexer_remaining in *; simpl in *; lia.

Lemma skip_whitespace_from_le s l col :
  remaining (skip_whitespace_from s l col) <= String.length s.
Proof.
  revert l col. induction s as [|c s IH]; intros l col; simpl; [rem_lia|].
  destruct (Text.isspace c); [|rem_lia].
  destruct (step_pos c l col) as [l' col']. specialize (IH l' col'). rem_lia.
Qed.

Lemma read_string_loop_le q s l col v v' st' :
  read_string_loop q s l col v = (v', st') ->
  remaining st' <= String.length s.
Proof.
  remember (String.length s) as n eqn:Hn.
  revert s l col v Hn.
  induction n as [n IH] using lt_wf_ind.
  intros s l col v Hn H. destruct s as [|c s]; simpl in H.
  - inversion H; subst. rem_lia.
  - destruct (Ascii.eqb c q).
    { inversion H; subst. rem_lia. }
    destruct (step_pos c l col) as [l1 col1].
    destruct (Ascii.eqb c "\").
    + destruct s as [|n' s'].
      * simpl in H. inversion H; subst. rem_lia.
      * destruct (step_pos n' l1 col1) as [l2 col2].
        eapply IH in H; [| |reflexivity]; rem_lia.
    + eapply IH in H; [| |reflexivity]; rem_lia.
Qed.

Lemma read_string_lt st v st' :
  read_string st = inl (v, st') -> remaining st' < remaining st.
Proof.
  unfold read_string, remaining. destruct (src st) as [|q s] eqn:Hs; [discriminate|].
  destruct (step_pos q (line st) (column st)) as [l1 col1].
  destruct (read_string_loop q s l1 col1 "") as [v1 st1] eqn:Hloop.
  apply read_string_loop_le in Hloop. unfold lexer_remaining in Hloop.
  unfold current_char, advance.
  destruct (src st1) as [|c r] eqn:H1; [discriminate|].
  destruct (step_pos c (line st1) (column st1)).
  intros H. inversion H; subst. simpl in *. lia.
Qed.

Lemma read_number_from_le s l col v :
  remaining (snd (read_number_from s l col v)) <= String.length s.
Proof.
  revert l col v. induction s as [|c s IH]; intros l col v; simpl; [rem_lia|].
  destruct (Text.isdigit c); [|rem_lia].
  destruct (step_pos c l col) as [l' col'].
  specialize (IH l' col' (Text.snoc v c)). rem_lia.
Qed.

Lemma read_identifier_from_le s l col v :
  remaining (snd (read_identifier_from s l col v)) <= String.length s.
Proof.
  revert l col v. induction s as [|c s IH]; intros l col v; simpl; [rem_lia|].
  destruct (Text.isalnum c || Ascii.eqb c "_"); [|rem_lia].
  destruct (step_pos c l col) as [l' col'].
  specialize (IH l' col' (Text.snoc v c)). rem_lia.
Qed.

Lemma lex_advance_lt st c :
  current_char st = Some c -> remaining (snd (advance st)) < remaining st.
Proof.
  unfold current_char, advance, remaining.
  destruct (src st) as [|c' r]; [discriminate|]. intros _.
  destruct (step_pos c' (line st) (column st)). simpl. lia.
Qed.

Lemma lex_advance_le st : remaining (snd (advance st)) <= remaining st.
Proof.
  unfold advance, remaining. destruct (src st) as [|c' r] eqn:E; simpl.
  - rewrite E. simpl. lia.
  - destruct (step_pos c' (line st) (column st)). simpl. lia.
Qed.

Lemma read_operator_lt st c :
  current_char st = Some c -> remaining (snd (read_operator st)) < remaining st.
Proof.
  intros Hc. assert (H1 := lex_advance_lt st c Hc).
  assert (H2 := lex_advance_le (snd (advance st))).
  unfold read_operator. unfold current_char in Hc.
  destruct (src st) as [|ch r] eqn:E; [discriminate|].
  repeat case_match; simpl; lia.
Qed.

Lemma skip_line_comment_le s l col :
  remaining (skip_line_comment s l col) <= String.length s.
Proof.
  revert l col. induction s as [|c s IH]; intros l col; simpl; [rem_lia|].
  destruct (Ascii.eqb c "010"); [rem_lia|].
  destruct (step_pos c l col) as [l' col']. specialize (IH l' col'). rem_lia.
Qed.

Lemma skip_block_comment_le s l col st' :
  skip_block_comment s l col = Some st' -> remaining st' <= String.length s.
Proof.
  revert l col. induction s as [|c s IH]; intros l col; simpl; [discriminate|].
  destruct (step_pos c l col) as [l1 col1].
  destruct s as [|c2 s'].
  - simpl. discriminate.
  - destruct (Ascii.eqb c "*" && Ascii.eqb c2 "/").
    + destruct (step_pos c2 l1 col1). intros H. inversion H; subst.
      unfold lexer_remaining. simpl. lia.
    + intros H. apply IH in H. simpl in *. lia.
Qed.

Lemma read_number_lt st c r :
  src st = String c r -> Text.isdigit c = true ->
  remaining (snd (read_number st)) < remaining st.
Proof.
  intros Hs Hd. unfold read_number. rewrite Hs. simpl. rewrite Hd.
  destruct (step_pos c (line st) (column st)) as [l' col'].
  pose proof (read_number_from_le r l' col' (Text.snoc "" c)).
  unfold lexer_remaining in *. rewrite Hs. simpl. lia.
Qed.

Lemma read_identifier_lt st c r :
  src st = String c r -> Text.isalpha c || Ascii.eqb c "_" = true ->
  remaining (snd (read_identifier st)) < remaining st.
Proof.
  intros Hs Hd. unfold read_identifier. rewrite Hs. simpl.
  assert (Text.isalnum c || Ascii.eqb c "_" = true) as ->.
  { unfold Text.isalnum. destruct (Text.isalpha c); [reflexivity|].
    simpl in Hd. rewrite Hd. apply orb_true_r. }
  destruct (step_pos c (line st) (column st)) as [l' col'].
  pose proof (read_identifier_from_le r l' col' (Text.snoc "" c)).
  unfold lexer_remaining in *. rewrite Hs. simpl. lia.
Qed.

Lemma skip_line_comment_lt st r :
  src st = String "-" r ->
  remaining (skip_line_comment (src st) (line st) (column st)) < remaining st.
Proof.
  intros Hs. rewrite Hs. simpl.
  pose proof (skip_line_comment_le r (line st) (column st + 1)).
  unfold lexer_remaining in *. rewrite Hs. simpl. lia.
Qed.

Lemma scan_fuel fuel st tokens :
  remaining st < fuel -> scan fuel st tokens <> OutOfFuel.
Proof.
  revert st tokens.
  induction fuel as [|fuel IH]; intros st tokens Hlt; [lia|].
  cbn [scan]. destruct (src st) as [|c0 r0] eqn:Hsrc; [discriminate|].
  pose proof (skip_whitespace_from_le (src st) (line st) (column st)) as Hws.
  fold (skip_whitespace st) in Hws. fold (remaining st) in Hws.
  set (st1 := skip_whitespace st) in *.
  destruct (src st1) as [|char after] eqn:H1; [discriminate|].
  assert (Hc : current_char st1 = Some char).
  { unfold current_char. rewrite H1. reflexivity. }
  destruct (Ascii.eqb char "034" || Ascii.eqb char "'").
  { destruct (read_string st1) as [[v st']|e] eqn:Hr; [|discriminate].
    apply IH. apply read_string_lt in Hr. lia. }
  destruct (Text.isdigit char) eqn:Hd.
  { pose proof (read_number_lt st1 char after H1 Hd).
    destruct (read_number st1) as [v st']. apply IH. simpl in *. lia. }
  destruct (Text.isalpha char || Ascii.eqb char "_") eqn:Ha.
  { pose proof (read_identifier_lt st1 char after H1 Ha).
    destruct (read_identifier st1) as [v st']. apply IH. simpl in *. lia. }
  destruct (Ascii.eqb char "=" || Ascii.eqb char "!"
            || Ascii.eqb char "<" || Ascii.eqb char ">").
  { pose proof (read_operator_lt st1 char Hc).
    destruct (read_operator st1) as [op st'].
    destruct (OPERATORS op); [|discriminate]. apply IH. simpl in *. lia. }
  pose proof (lex_advance_lt st1 char Hc) as Hadv.
  destruct (DELIMITERS char).
  { apply IH. lia. }
  destruct (Ascii.eqb char "-" && bool_decide (peek_char st1 = Some "-"%char))
    eqn:Hdash.
  { apply IH. apply andb_true_iff in Hdash as [Hdash _].
    apply Ascii.eqb_eq in Hdash. subst char.
    pose proof (skip_line_comment_lt st1 after H1) as Hlc.
    rewrite H1 in Hlc. lia. }
  destruct (Ascii.eqb char "/" && bool_decide (peek_char st1 = Some "*"%char)).
  { pose proof (lex_advance_le (snd (advance st1))) as Hadv2.
    set (st2 := snd (advance (snd (advance st1)))) in *.
    destruct (skip_block_comment (src st2) (line st2) (column st2))
      as [st'|] eqn:Hb; [|discriminate].
    apply skip_block_comment_le in Hb. fold (remaining st2) in Hb.
    apply IH. lia. }
  destruct (Text.is_ascii char); discriminate.
Qed.

(** [tokenize] never stops for lack of iterations: it returns the token
    list or raises a [LexerError]. *)
Lemma tokenize_total source : tokenize source <> OutOfFuel.
Proof.
  unfold tokenize.
  pose proof (scan_fuel (S (String.length source)) (init source) []) as H.
  destruct (scan (S (String.length source)) (init source) []);
    try discriminate.
  apply H. unfold lexer_remaining, init. simpl. lia.
Qed.

End LexerProgress.

(** ** The monad of the parser *)

Section ParserMonad.

Import Parser.

Lemma bind_Ok {A B} (m : M A) (k : A -> M B) st b st2 :
  bind m k st = Ok b st2 ->
  exists a st1, m st = Ok a st1 /\ k a st1 = Ok b st2.
Proof.
  unfold bind. destruct (m st) as [a st1|e]; [|discriminate].
  intros H. exists a, st1. split; [reflexivity|exact H].
Qed.

Lemma bind_safe {A B} (m : M A) (k : A -> M B) st :
  m st <> Fail OutOfFuel ->
  (forall a st1, m st = Ok a st1 -> k a st1 <> Fail OutOfFuel) ->
  bind m k st <> Fail OutOfFuel.
Proof.
  unfold bind. intros Hm Hk. destruct (m st) as [a st1|e].
  - apply Hk. reflexivity.
  - intros Heq. apply Hm. inversion Heq. reflexivity.
Qed.

Lemma advance_Ok st u st1 :
  advance st = Ok u st1 ->
  st1 = match rest st with
        | t :: ts => mkState t ts
        | [] => mkState eof_token []
        end.
Proof. unfold advance. destruct (rest st); intros H; inversion H; reflexivity. Qed.

Lemma advance_safe st : advance st <> Fail OutOfFuel.
Proof. unfold advance. destruct (rest st); discriminate. Qed.

Lemma advance_le st u st1 :
  advance st = Ok u st1 -> parser_measure st1 <= parser_measure st.
Proof.
  intros H. apply advance_Ok in H. subst st1. unfold parser_measure.
  destruct (rest st) as [|t ts]; simpl.
  - lia.
  - destruct (is_eof t), (is_eof (current_token st)); lia.
Qed.

Lemma advance_lt st u st1 :
  advance st = Ok u st1 -> is_eof (current_token st) = false ->
  parser_measure st1 < parser_measure st.
Proof.
  intros H He. apply advance_Ok in H. subst st1. unfold parser_measure.
  rewrite He. destruct (rest st) as [|t ts]; simpl.
  - lia.
  - destruct (is_eof t); lia.
Qed.

Lemma advance_upper st u st1 :
  advance st = Ok u st1 -> state_upper st -> state_upper st1.
Proof.
  intros H [Hc Hr]. apply advance_Ok in H. subst st1. unfold state_upper.
  destruct (rest st) as [|t ts]; simpl.
  - split; [discriminate|constructor].
  - inversion Hr; subst. split; assumption.
Qed.

(** A successful [match] against token types other than [EOF] means the
    current token is not an end-of-input token. *)
Lemma match_not_eof ts st :
  match_ ts st = true -> existsb (TokenType_eqb EOF) ts = false ->
  is_eof (current_token st) = false.
Proof.
  unfold match_, is_eof. intros Hm Hn.
  destruct (tok_type (current_token st)); try reflexivity.
  rewrite Hm in Hn. discriminate.
Qed.

Lemma match_one t st :
  match_ [t] st = true -> tok_type (current_token st) = t.
Proof.
  unfold match_. simpl.
  destruct (tok_type (current_token st)), t; simpl; congruence.
Qed.

Lemma is_keyword_not_eof kw st :
  is_keyword kw st = true -> is_eof (current_token st) = false.
Proof.
  unfold is_keyword. intros H. apply andb_true_iff in H as [H _].
  eapply match_not_eof; [exact H|reflexivity].
Qed.

Lemma consume_Ok t msg st tok st1 :
  consume t msg st = Ok tok st1 ->
  tok = current_token st /\ tok_type tok = t /\ advance st = Ok tt st1.
Proof.
  unfold consume, cond. destruct (match_ [t] st) eqn:Hm; [|discriminate].
  intros H. apply bind_Ok in H as (a & sa & Ha & H).
  inversion Ha; subst. apply bind_Ok in H as ([] & sb & Hb & H).
  inversion H; subst. apply match_one in Hm. auto.
Qed.

Lemma consume_safe t msg st : consume t msg st <> Fail OutOfFuel.
Proof.
  unfold consume, cond. destruct (match_ [t] st); [|discriminate].
  unfold bind, current. pose proof (advance_safe st) as H.
  destruct (advance st); [discriminate|].
  intros Heq. apply H. inversion Heq. reflexivity.
Qed.

Lemma consume_lt t msg st tok st1 :
  t <> EOF -> consume t msg st = Ok tok st1 ->
  parser_measure st1 < parser_measure st.
Proof.
  intros Ht H. apply consume_Ok in H as (-> & Hty & Hadv).
  eapply advance_lt; [exact Hadv|]. unfold is_eof. rewrite Hty.
  destruct t; try reflexivity. congruence.
Qed.

Lemma consume_upper t msg st tok st1 :
  consume t msg st = Ok tok st1 -> state_upper st ->
  state_upper st1 /\ ident_upper tok.
Proof.
  intros H Hu. apply consume_Ok in H as (-> & Hty & Hadv).
  split; [eapply advance_upper; eauto|apply Hu].
Qed.

End ParserMonad.

(** ** Every parser method consumes tokens, keeps upper-cased identifiers
    upper-cased, and stays within its loop bound *)

Section ParserMethods.

Import Parser.

Lemma consume_inv t msg st tok st1 :
  consume t msg st = Ok tok st1 -> t <> EOF ->
  tok = current_token st
  /\ tok_type (current_token st) = t
  /\ is_eof (current_token st) = false
  /\ advance st = Ok tt st1.
Proof.
  intros H Ht. apply consume_Ok in H as (-> & Hty & Hadv).
  repeat split; try assumption.
  unfold is_eof. rewrite Hty. destruct t; try reflexivity. congruence.
Qed.

Lemma to_int_Ok s st z st1 : to_int s st = Ok z st1 -> st1 = st.
Proof.
  unfold to_int. destruct (Text.int s); [|discriminate].
  intros H. inversion H. reflexivity.
Qed.

Lemma to_int_safe s st : to_int s st <> Fail OutOfFuel.
Proof. unfold to_int. destruct (Text.int s); discriminate. Qed.

(** Decompose a successful run of a method body into the runs of its
    parts. *)
Ltac monad_inv :=
  repeat match goal with
  | H : bind _ _ _ = Ok _ _ |- _ =>
      let a := fresh "a" in
      let s := fresh "s" in
      let Hm := fresh "Hm" in
      apply bind_Ok in H as (a & s & Hm & H)
  | H : cond _ _ _ _ = Ok _ _ |- _ => unfold cond in H
  | H : (if ?c then _ else _) = Ok _ _ |- _ =>
      let E := fresh "E" in destruct c eqn:E
  | H : ret _ _ = Ok _ _ |- _ => inversion H; subst; clear H
  | H : current _ = Ok _ _ |- _ => inversion H; subst; clear H
  | H : raise _ _ = Ok _ _ |- _ => discriminate H
  | H : Fail _ = Ok _ _ |- _ => discriminate H
  | H : (fun _ => _) _ = Ok _ _ |- _ => cbv beta in H
  end.

Ltac learn pf :=
  let T := type of pf in
  lazymatch goal with
  | _ : T |- _ => fail
  | _ => pose proof pf
  end.

(** Replace the successful runs of [lem]'s method by what [lem] says. *)
Ltac use lem :=
  repeat match goal with
  | H : _ = Ok _ _ |- _ => apply lem in H as [? ?]
  end.

(** Saturate the context with what is known of each intermediate state. *)
Ltac parser_facts :=
  repeat match goal with
  | H : consume _ _ _ = Ok _ _ |- _ =>
      apply consume_inv in H as (-> & ? & ? & ?); [|discriminate]
  | H : to_int _ _ = Ok _ _ |- _ => apply to_int_Ok in H; subst
  | E : match_ ?ts ?s = true |- _ => learn (match_not_eof ts s E eq_refl)
  | E : match_ [_] ?s = true |- _ => learn (match_one _ s E)
  | E : is_keyword _ ?s = true |- _ => learn (is_keyword_not_eof _ s E)
  | H : advance ?s = Ok _ _ |- _ => learn (advance_le s _ _ H)
  | H : advance ?s = Ok _ _, N : is_eof (current_token ?s) = false |- _ =>
      learn (advance_lt s _ _ H N)
  | H : advance ?s = Ok _ _, U : state_upper ?s |- _ =>
      learn (advance_upper s _ _ H U)
  | U : state_upper ?s, T : tok_type (current_token ?s) = IDENTIFIER |- _ =>
      learn (proj1 U T)
  | I : state_upper ?s -> _, U : state_upper ?s |- _ => specialize (I U)
  | H : _ /\ _ |- _ => destruct H
  end.

Ltac safe_step :=
  repeat match goal with
  | |- bind _ _ _ <> Fail OutOfFuel => apply bind_safe; [|intros ? ? ?]
  | |- cond _ _ _ _ <> _ => unfold cond
  | |- (if ?c then _ else _) <> _ => destruct c eqn:?
  | |- ret _ _ <> _ => unfold ret; discriminate
  | |- raise _ _ <> _ => unfold raise; discriminate
  | |- current _ <> _ => unfold current; discriminate
  | |- advance _ <> _ => apply advance_safe
  | |- consume _ _ _ <> _ => apply consume_safe
  | |- to_int _ _ <> _ => apply to_int_safe
  end.

(** Close a goal of the form progress-and-preservation once the context is
    saturated. *)
Ltac finish_ok :=
  parser_facts;
  split; [lia|];
  let U := fresh "U" in intros U; parser_facts; simpl; auto.

Lemma parse_literal_ok st e st1 :
  parse_literal st = Ok e st1 ->
  parser_measure st1 < parser_measure st
  /\ (state_upper st -> state_upper st1 /\ expr_names_upper e).
Proof. unfold parse_literal. intros H. monad_inv; finish_ok. Qed.

Lemma parse_literal_safe st : parse_literal st <> Fail OutOfFuel.
Proof. unfold parse_literal. safe_step. Qed.

Lemma parse_primary_ok st e st1 :
  parse_primary st = Ok e st1 ->
  parser_measure st1 < parser_measure st
  /\ (state_upper st -> state_upper st1 /\ expr_names_upper e).
Proof.
  unfold parse_primary. intros H. monad_inv; use parse_literal_ok; finish_ok.
Qed.

Lemma parse_primary_safe st : parse_primary st <> Fail OutOfFuel.
Proof. unfold parse_primary. safe_step. apply parse_literal_safe. Qed.

Lemma parse_comparison_ok st e st1 :
  parse_comparison st = Ok e st1 ->
  parser_measure st1 < parser_measure st
  /\ (state_upper st -> state_upper st1 /\ expr_names_upper e).
Proof.
  unfold parse_comparison. intros H. monad_inv; use parse_primary_ok; finish_ok.
Qed.

Lemma parse_comparison_safe st : parse_comparison st <> Fail OutOfFuel.
Proof.
  unfold parse_comparison. safe_step; apply parse_primary_safe.
Qed.

Lemma parse_where_ok st w st1 :
  parse_where st = Ok w st1 ->
  parser_measure st1 <= parser_measure st
  /\ (state_upper st -> state_upper st1 /\ where_names_upper w).
Proof.
  unfold parse_where, parse_expression. intros H.
  monad_inv; use parse_comparison_ok; finish_ok.
Qed.

Lemma parse_where_safe st : parse_where st <> Fail OutOfFuel.
Proof.
  unfold parse_where, parse_expression. safe_step. apply parse_comparison_safe.
Qed.

Lemma parse_data_type_ok st d st1 :
  parse_data_type st = Ok d st1 ->
  parser_measure st1 < parser_measure st
  /\ (state_upper st -> state_upper st1 /\ True).
Proof. unfold parse_data_type. intros H. monad_inv; finish_ok. Qed.

Lemma parse_data_type_safe st : parse_data_type st <> Fail OutOfFuel.
Proof. unfold parse_data_type. safe_step. Qed.

Lemma parse_column_definition_ok st c st1 :
  parse_column_definition st = Ok c st1 ->
  parser_measure st1 < parser_measure st
  /\ (state_upper st -> state_upper st1 /\ is_upper (cd_name c)).
Proof.
  unfold parse_column_definition. intros H.
  monad_inv; use parse_data_type_ok; finish_ok.
Qed.

Lemma parse_column_definition_safe st :
  parse_column_definition st <> Fail OutOfFuel.
Proof. unfold parse_column_definition. safe_step. apply parse_data_type_safe. Qed.

(** The loops: a run within the bound does not lengthen the remaining input
    and extends the accumulated list by upper-cased names only. *)

Ltac loop_ok IH :=
  repeat match goal with
  | H : _ = Ok _ _ |- _ => apply IH in H as [? ?]
  end.

Ltac finish_loop :=
  parser_facts;
  split; [lia|];
  let U := fresh "U" in
  intros U; parser_facts;
  split; [assumption|];
  let F := fresh "F" in
  intros F;
  repeat match goal with
  | I : Forall _ (_ ++ [_]) -> _ |- _ => apply I
  end;
  try (apply Forall_app; split; [assumption|]);
  repeat constructor; simpl; auto.

Lemma column_list_ok fuel : forall columns st columns1 st1,
  column_list fuel columns st = Ok columns1 st1 ->
  parser_measure st1 <= parser_measure st
  /\ (state_upper st ->
      state_upper st1
      /\ (Forall (fun c => is_upper (cd_name c)) columns ->
          Forall (fun c => is_upper (cd_name c)) columns1)).
Proof.
  induction fuel as [|fuel IH]; intros columns st columns1 st1 H;
    cbn [column_list] in H; [discriminate|].
  monad_inv; loop_ok IH; use parse_column_definition_ok; finish_loop.
Qed.

Lemma column_list_safe fuel : forall columns st,
  parser_measure st < fuel -> column_list fuel columns st <> Fail OutOfFuel.
Proof.
  induction fuel as [|fuel IH]; intros columns st Hlt; [lia|].
  cbn [column_list]. safe_step; try apply parse_column_definition_safe;
    use parse_column_definition_ok; parser_facts; apply IH; lia.
Qed.

Lemma insert_columns_ok fuel : forall columns st columns1 st1,
  insert_columns fuel columns st = Ok columns1 st1 ->
  parser_measure st1 <= parser_measure st
  /\ (state_upper st ->
      state_upper st1
      /\ (Forall is_upper columns -> Forall is_upper columns1)).
Proof.
  induction fuel as [|fuel IH]; intros columns st columns1 st1 H;
    cbn [insert_columns] in H; [discriminate|].
  monad_inv; loop_ok IH; finish_loop.
Qed.

Lemma insert_columns_safe fuel : forall columns st,
  parser_measure st < fuel -> insert_columns fuel columns st <> Fail OutOfFuel.
Proof.
  induction fuel as [|fuel IH]; intros columns st Hlt; [lia|].
  cbn [insert_columns]. safe_step; parser_facts; apply IH; lia.
Qed.

Lemma insert_values_ok fuel : forall row st row1 st1,
  insert_values fuel row st = Ok row1 st1 ->
  parser_measure st1 <= parser_measure st
  /\ (state_upper st ->
      state_upper st1
      /\ (Forall expr_names_upper row -> Forall expr_names_upper row1)).
Proof.
  induction fuel as [|fuel IH]; intros row st row1 st1 H;
    cbn [insert_values] in H; [discriminate|].
  monad_inv; loop_ok IH; use parse_literal_ok; finish_loop.
Qed.

Lemma insert_values_safe fuel : forall row st,
  parser_measure st < fuel -> insert_values fuel row st <> Fail OutOfFuel.
Proof.
  induction fuel as [|fuel IH]; intros row st Hlt; [lia|].
  cbn [insert_values]. safe_step; try apply parse_literal_safe;
    use parse_literal_ok; parser_facts; apply IH; lia.
Qed.

Lemma select_items_ok fuel : forall items st items1 st1,
  select_items fuel items st = Ok items1 st1 ->
  parser_measure st1 < parser_measure st
  /\ (state_upper st ->
      state_upper st1
      /\ (Forall expr_names_upper items -> Forall expr_names_upper items1)).
Proof.
  induction fuel as [|fuel IH]; intros items st items1 st1 H;
    cbn [select_items] in H; [discriminate|].
  monad_inv; loop_ok IH; finish_loop.
Qed.

Lemma select_items_safe fuel : forall items st,
  parser_measure st < fuel -> select_items fuel items st <> Fail OutOfFuel.
Proof.
  induction fuel as [|fuel IH]; intros items st Hlt; [lia|].
  cbn [select_items]. safe_step. monad_inv. parser_facts. apply IH. lia.
Qed.

Lemma update_assignments_ok fuel : forall asg st asg1 st1,
  update_assignments fuel asg st = Ok asg1 st1 ->
  parser_measure st1 < parser_measure st
  /\ (state_upper st ->
      state_upper st1
      /\ (Forall (fun a => is_upper (fst a) /\ expr_names_upper (snd a)) asg ->
          Forall (fun a => is_upper (fst a) /\ expr_names_upper (snd a)) asg1)).
Proof.
  induction fuel as [|fuel IH]; intros asg st asg1 st1 H;
    cbn [update_assignments] in H; [discriminate|].
  monad_inv; loop_ok IH; use parse_primary_ok; finish_loop.
Qed.

Lemma update_assignments_safe fuel : forall asg st,
  parser_measure st < fuel -> update_assignments fuel asg st <> Fail OutOfFuel.
Proof.
  induction fuel as [|fuel IH]; intros asg st Hlt; [lia|].
  cbn [update_assignments]. safe_step; try apply parse_primary_safe.
  use parse_primary_ok. parser_facts. apply IH. lia.
Qed.

Lemma fuel_of_enough st : parser_measure st < fuel_of st.
Proof.
  unfold parser_measure, fuel_of. destruct (is_eof (current_token st)); lia.
Qed.

(** The statements. *)

Ltac stmt_inv :=
  repeat (monad_inv;
          match goal with
          | H : match ?x with [] => _ | _ :: _ => _ end _ = Ok _ _ |- _ =>
              destruct x
          | H : (if ?c then _ else _) _ = Ok _ _ |- _ =>
              let E := fresh "E" in destruct c eqn:E
          end);
  monad_inv.

Ltac finish_stmt :=
  parser_facts;
  split; [lia|];
  let U := fresh "U" in
  intros U; parser_facts;
  repeat match goal with
  | I : Forall _ [] -> _ |- _ => specialize (I ltac:(constructor))
  end;
  simpl;
  repeat match goal with
  | |- _ /\ _ => split
  end;
  auto.

Lemma parse_create_table_ok st s st1 :
  parse_create_table st = Ok s st1 ->
  parser_measure st1 < parser_measure st
  /\ (state_upper st -> state_upper st1 /\ stmt_names_upper s).
Proof.
  unfold parse_create_table. intros H.
  stmt_inv; use column_list_ok; finish_stmt.
Qed.

Lemma parse_create_table_safe st : parse_create_table st <> Fail OutOfFuel.
Proof.
  unfold parse_create_table. safe_step.
  - apply column_list_safe, fuel_of_enough.
  - destruct a4; safe_step.
Qed.

Lemma parse_insert_ok st s st1 :
  parse_insert st = Ok s st1 ->
  parser_measure st1 < parser_measure st
  /\ (state_upper st -> state_upper st1 /\ stmt_names_upper s).
Proof.
  unfold parse_insert. intros H.
  stmt_inv; use insert_columns_ok; use insert_values_ok; finish_stmt.
Qed.

Lemma parse_insert_safe st : parse_insert st <> Fail OutOfFuel.
Proof.
  unfold parse_insert. safe_step;
    first [apply insert_columns_safe | apply insert_values_safe];
    apply fuel_of_enough.
Qed.

Lemma parse_select_ok st s st1 :
  parse_select st = Ok s st1 ->
  parser_measure st1 < parser_measure st
  /\ (state_upper st -> state_upper st1 /\ stmt_names_upper s).
Proof.
  unfold parse_select. intros H.
  stmt_inv; use select_items_ok; use parse_where_ok; finish_stmt.
Qed.

Lemma parse_select_safe st : parse_select st <> Fail OutOfFuel.
Proof.
  unfold parse_select. safe_step;
    first [apply select_items_safe, fuel_of_enough | apply parse_where_safe].
Qed.

Lemma parse_delete_ok st s st1 :
  parse_delete st = Ok s st1 ->
  parser_measure st1 < parser_measure st
  /\ (state_upper st -> state_upper st1 /\ stmt_names_upper s).
Proof.
  unfold parse_delete. intros H.
  stmt_inv; use parse_where_ok; finish_stmt.
Qed.

Lemma parse_delete_safe st : parse_delete st <> Fail OutOfFuel.
Proof. unfold parse_delete. safe_step. apply parse_where_safe. Qed.

Lemma parse_update_ok st s st1 :
  parse_update st = Ok s st1 ->
  parser_measure st1 < parser_measure st
  /\ (state_upper st -> state_upper st1 /\ stmt_names_upper s).
Proof.
  unfold parse_update. intros H.
  stmt_inv; use update_assignments_ok; use parse_where_ok; finish_stmt.
Qed.

Lemma parse_update_safe st : parse_update st <> Fail OutOfFuel.
Proof.
  unfold parse_update. safe_step;
    first [apply update_assignments_safe, fuel_of_enough
          | apply parse_where_safe].
Qed.

Lemma parse_statement_ok st s st1 :
  parse_statement st = Ok s st1 ->
  parser_measure st1 < parser_measure st
  /\ (state_upper st -> state_upper st1 /\ stmt_names_upper s).
Proof.
  unfold parse_statement. intros H. stmt_inv.
  - apply parse_create_table_ok; assumption.
  - apply parse_insert_ok; assumption.
  - apply parse_select_ok; assumption.
  - apply parse_delete_ok; assumption.
  - apply parse_update_ok; assumption.
Qed.

Lemma parse_statement_safe st : parse_statement st <> Fail OutOfFuel.
Proof.
  unfold parse_statement. safe_step.
  repeat match goal with
  | |- (if ?c then _ else _) _ <> _ => destruct c
  end;
  first [ apply parse_create_table_safe | apply parse_insert_safe
        | apply parse_select_safe | apply parse_delete_safe
        | apply parse_update_safe | safe_step ].
Qed.

(** The shape of the node each statement method builds. *)
Lemma parse_statement_shape st s st1 :
  parse_statement st = Ok s st1 -> create_has_column s /\ insert_single_row s.
Proof.
  unfold parse_statement. intros H. stmt_inv.
  - unfold parse_create_table in H. stmt_inv. simpl. split; [discriminate|exact I].
  - unfold parse_insert in H. stmt_inv; simpl; split; eauto.
  - unfold parse_select in H. stmt_inv; simpl; auto.
  - unfold parse_delete in H. stmt_inv; simpl; auto.
  - unfold parse_update in H. stmt_inv; simpl; auto.
Qed.

(** The main loop. *)
Lemma program_ok fuel : forall stmts st stmts1 st1,
  program fuel stmts st = Ok stmts1 st1 ->
  (state_upper st -> Forall stmt_names_upper stmts ->
   Forall stmt_names_upper stmts1)
  /\ (Forall create_has_column stmts -> Forall create_has_column stmts1)
  /\ (Forall insert_single_row stmts -> Forall insert_single_row stmts1).
Proof.
  induction fuel as [|fuel IH]; intros stmts st stmts1 st1 H;
    cbn [program] in H; [discriminate|].
  monad_inv; try (repeat split; intros; assumption);
    apply IH in H as (Hn & Hc & Hi);
    match goal with
    | Hs : parse_statement _ = Ok _ _ |- _ =>
        pose proof (parse_statement_shape _ _ _ Hs) as [Hc0 Hi0]
    end;
    use parse_statement_ok; parser_facts;
    (split; [ intros U F; parser_facts; apply Hn
            | split; [ intros F; apply Hc | intros F; apply Hi ] ]);
    (apply Forall_app; split; [assumption|]); repeat constructor; assumption.
Qed.

Lemma program_safe fuel : forall stmts st,
  parser_measure st < fuel -> program fuel stmts st <> Fail OutOfFuel.
Proof.
  induction fuel as [|fuel IH]; intros stmts st Hlt; [lia|].
  cbn [program]. safe_step; try apply parse_statement_safe;
    monad_inv; use parse_statement_ok; parser_facts; apply IH; lia.
Qed.

(** [parse] returns a program or raises an exception of the parser: the loop
    bounds of the embedding are never reached. *)
Lemma parse_total tokens : parse tokens <> inl OutOfFuel.
Proof.
  unfold parse. destruct tokens as [|t ts]; [discriminate|].
  pose proof (program_safe (fuel_of (mkState t ts)) [] (mkState t ts)
                (fuel_of_enough _)) as H.
  destruct (program (fuel_of (mkState t ts)) [] (mkState t ts));
    [discriminate|].
  intros Heq. apply H. inversion Heq. reflexivity.
Qed.

(** The main loop, one statement at a time. *)
Lemma parse_statement_keyword st s st1 :
  parse_statement st = Ok s st1 -> tok_type (current_token st) = KEYWORD.
Proof.
  unfold parse_statement. intros H. monad_inv. apply match_one. assumption.
Qed.

Lemma program_step fuel stmts st stmt st1 st2 :
  parse_statement st = Ok stmt st1 ->
  cond (match_ [SEMICOLON]) advance (ret tt) st1 = Ok tt st2 ->
  program (S fuel) stmts st = program fuel (stmts ++ [stmt]) st2.
Proof.
  intros Hs Hsemi. pose proof (parse_statement_keyword _ _ _ Hs) as Hk.
  cbn [program]. unfold cond at 1. unfold match_ at 1. rewrite Hk. simpl.
  unfold bind at 1. unfold current at 1.
  unfold cond at 1. unfold match_ at 1. rewrite Hk. simpl.
  unfold bind at 1. rewrite Hs.
  unfold bind at 1. rewrite Hsemi. reflexivity.
Qed.

Lemma statement_start_run tokens st stmts :
  statement_start tokens st stmts ->
  exists fuel,
    parser_measure st < fuel
    /\ parse tokens = match program fuel stmts st with
                      | Ok s _ => inr (mkSQLProgram s 1 1)
                      | Fail e => inl e
                      end.
Proof.
  induction 1 as [t ts ->|st stmts stmt st1 st2 _ (fuel & Hlt & Hrun) Hs Hsemi].
  - exists (fuel_of (mkState t ts)). split; [apply fuel_of_enough|reflexivity].
  - destruct fuel as [|fuel]; [lia|]. exists fuel.
    rewrite (program_step _ _ _ _ _ _ Hs Hsemi) in Hrun.
    split; [|exact Hrun].
    pose proof (parse_statement_ok _ _ _ Hs) as [Hlt1 _].
    unfold cond in Hsemi. destruct (match_ [SEMICOLON] st1).
    + apply advance_le in Hsemi. lia.
    + inversion Hsemi; subst. lia.
Qed.

Lemma program_at_semicolon fuel stmts st :
  tok_type (current_token st) = SEMICOLON ->
  program (S fuel) stmts st =
  Fail (ParseError "Expected statement" (current_token st)
          (Some "CREATE, INSERT, SELECT, DELETE, or UPDATE")).
Proof.
  intros Hty. cbn [program]. unfold cond, bind, current, parse_statement.
  unfold cond, bind, current, match_. rewrite Hty. reflexivity.
Qed.

(** The names of the nodes are lexemes of identifier tokens: whatever holds
    of the lexeme of every identifier token holds of every name. *)



















End ParserMethods.

(** ** The tokens of [tokenize] *)

Section LexerTokens.

Import Lexer.






End LexerTokens.

(** ** Where the tokens come from *)

Section LexerOrigin.

Import Lexer.

Lemma append_cons (c : ascii) (s t : string) :
  String c s +:+ t = String c (s +:+ t).
Proof. reflexivity. Qed.

Lemma append_end (s : string) : s +:+ "" = s.
Proof.
  induction s as [|a s IH]; [reflexivity|].
  rewrite append_cons. f_equal. exact IH.
Qed.

Lemma append_assoc (a b c : string) : (a +:+ b) +:+ c = a +:+ (b +:+ c).
Proof.
  induction a as [|x a IH]; [reflexivity|].
  rewrite !append_cons. f_equal. exact IH.
Qed.

Lemma suffix_refl s : suffix_of s s.
Proof. exists "". reflexivity. Qed.

Lemma suffix_trans a b c : suffix_of a b -> suffix_of b c -> suffix_of a c.
Proof.
  intros [p ->] [q ->]. exists (q +:+ p). rewrite append_assoc. reflexivity.
Qed.

Lemma suffix_cons c s : suffix_of s (String c s).
Proof. exists (String c ""). reflexivity. Qed.

Lemma suffix_step c s t : suffix_of t s -> suffix_of t (String c s).
Proof. intros H. eapply suffix_trans; [exact H|apply suffix_cons]. Qed.

Lemma string_forall_suffix p s source :
  suffix_of s source -> string_forall p source = true ->
  string_forall p s = true.
Proof.
  intros [pre ->]. induction pre as [|c pre IH]; [auto|].
  rewrite append_cons. simpl. intros H.
  apply andb_true_iff in H as [_ H]. auto.
Qed.

(** The readers take characters off the front of the remaining source. *)
Lemma skip_whitespace_from_suffix s l col :
  suffix_of (src (skip_whitespace_from s l col)) s.
Proof.
  revert l col. induction s as [|c s IH]; intros l col; simpl.
  - apply suffix_refl.
  - destruct (Text.isspace c); [|apply suffix_refl].
    destruct (step_pos c l col) as [l' col']. apply suffix_step, IH.
Qed.

Lemma read_string_loop_suffix q s : forall l col v,
  suffix_of (src (read_string_loop q s l col v).2) s.
Proof.
  remember (String.length s) as n eqn:Hn. revert s Hn.
  induction n as [n IH] using lt_wf_ind.
  intros s Hn l col v. destruct s as [|c s]; simpl; [apply suffix_refl|].
  destruct (Ascii.eqb c q); [apply suffix_refl|].
  destruct (step_pos c l col) as [l1 col1].
  destruct (Ascii.eqb c "\").
  - destruct s as [|n' s'].
    + apply suffix_step. simpl. apply suffix_refl.
    + destruct (step_pos n' l1 col1) as [l2 col2].
      apply suffix_step, suffix_step.
      eapply IH; [|reflexivity]. subst n. simpl. lia.
  - apply suffix_step. eapply IH; [|reflexivity]. subst n. simpl. lia.
Qed.

Lemma lex_advance_suffix st : suffix_of (src (advance st).2) (src st).
Proof.
  unfold advance. destruct (src st) as [|c r] eqn:Hs.
  - simpl. rewrite Hs. apply suffix_refl.
  - destruct (step_pos c (line st) (column st)). simpl. apply suffix_cons.
Qed.

Lemma read_string_suffix st v st' :
  read_string st = inl (v, st') -> suffix_of (src st') (src st).
Proof.
  unfold read_string. destruct (src st) as [|q rest]; [discriminate|].
  destruct (step_pos q (line st) (column st)) as [l1 col1].
  pose proof (read_string_loop_suffix q rest l1 col1 "") as Hl.
  destruct (read_string_loop q rest l1 col1 "") as [v1 st1].
  destruct (current_char st1); [|discriminate].
  intros H. inversion H; subst. apply suffix_step.
  eapply suffix_trans; [apply lex_advance_suffix|exact Hl].
Qed.

Lemma read_number_from_suffix s : forall l col v,
  suffix_of (src (read_number_from s l col v).2) s.
Proof.
  induction s as [|c s IH]; intros l col v; simpl; [apply suffix_refl|].
  destruct (Text.isdigit c); [|apply suffix_refl].
  destruct (step_pos c l col) as [l' col']. apply suffix_step, IH.
Qed.

(** [read_identifier] splits the remaining source into the identifier
    characters it returns and a rest that does not continue them. *)
Lemma read_identifier_from_split s : forall l col v,
  exists w,
    (read_identifier_from s l col v).1 = v +:+ w
    /\ s = w +:+ src (read_identifier_from s l col v).2
    /\ string_forall ident_char w = true
    /\ match src (read_identifier_from s l col v).2 with
       | String c _ => ident_char c = false
       | EmptyString => True
       end.
Proof.
  induction s as [|c s IH]; intros l col v; simpl.
  - exists "". rewrite append_end. repeat split.
  - fold (ident_char c). destruct (ident_char c) eqn:Hc.
    + destruct (step_pos c l col) as [l' col'].
      destruct (IH l' col' (Text.snoc v c)) as (w & Hv & Hs & Hw & Hr).
      exists (String c w). rewrite Hv. unfold Text.snoc.
      rewrite append_assoc, !append_cons. simpl. rewrite Hc, Hw.
      repeat split; [f_equal; exact Hs|exact Hr].
    + exists "". simpl. rewrite append_end, Hc. repeat split.
Qed.

Lemma read_operator_suffix st : suffix_of (src (read_operator st).2) (src st).
Proof.
  pose proof (lex_advance_suffix st) as H1.
  pose proof (lex_advance_suffix (advance st).2) as H2.
  pose proof (suffix_trans _ _ _ H2 H1) as H3.
  unfold read_operator. destruct (src st) as [|c r] eqn:Hs.
  - simpl. rewrite Hs. apply suffix_refl.
  - repeat case_match; simpl; assumption.
Qed.

Lemma skip_line_comment_suffix s : forall l col,
  suffix_of (src (skip_line_comment s l col)) s.
Proof.
  induction s as [|c s IH]; intros l col; simpl; [apply suffix_refl|].
  destruct (Ascii.eqb c "010"); [apply suffix_refl|].
  destruct (step_pos c l col) as [l' col']. apply suffix_step, IH.
Qed.

Lemma skip_block_comment_suffix s : forall l col st',
  skip_block_comment s l col = Some st' -> suffix_of (src st') s.
Proof.
  induction s as [|c s IH]; intros l col st'; simpl; [discriminate|].
  destruct (step_pos c l col) as [l1 col1].
  destruct s as [|c2 s'].
  - intros H. apply IH in H. apply suffix_step. exact H.
  - destruct (Ascii.eqb c "*" && Ascii.eqb c2 "/").
    + destruct (step_pos c2 l1 col1) as [l2 col2].
      intros H. inversion H; subst. simpl.
      apply suffix_step, suffix_cons.
    + intros H. apply IH in H. apply suffix_step. exact H.
Qed.





(** On a source of ASCII characters the scanner never has to classify a
    character outside ASCII: the embedding says what [tokenize] does. *)
Lemma scan_in_scope source fuel : forall st tokens,
  string_forall Text.is_ascii source = true ->
  suffix_of (src st) source ->
  scan fuel st tokens <> Unmodelled.
Proof.
  induction fuel as [|fuel IH]; intros st tokens Hascii Hsuf;
    cbn [scan]; [discriminate|].
  pose proof (skip_whitespace_from_suffix (src st) (line st) (column st))
    as Hws. fold (skip_whitespace st) in Hws.
  assert (Hsuf1 : suffix_of (src (skip_whitespace st)) source)
    by (eapply suffix_trans; eassumption).
  clear Hws Hsuf.
  destruct (src st) as [|c0 r0] eqn:Hsrc; [discriminate|].
  set (st1 := skip_whitespace st) in *.
  destruct (src st1) as [|char after] eqn:H1; [discriminate|].
  assert (Hnext : forall st2 toks,
            suffix_of (src st2) (String char after) ->
            scan fuel st2 toks <> Unmodelled).
  { intros st2 toks Hs2. apply IH; [assumption|].
    eapply suffix_trans; eassumption. }
  destruct (Ascii.eqb char "034" || Ascii.eqb char "'").
  { destruct (read_string st1) as [[v st2]|e] eqn:Hr; [|discriminate].
    apply read_string_suffix in Hr. rewrite H1 in Hr. apply Hnext, Hr. }
  destruct (Text.isdigit char).
  { pose proof (read_number_from_suffix (src st1) (line st1) (column st1) "")
      as Hn. fold (read_number st1) in Hn. rewrite H1 in Hn.
    destruct (read_number st1) as [v st2]. apply Hnext, Hn. }
  destruct (Text.isalpha char || Ascii.eqb char "_").
  { destruct (read_identifier_from_split (src st1) (line st1) (column st1) "")
      as (w & _ & Hsplit & _ & _). fold (read_identifier st1) in Hsplit.
    rewrite H1 in Hsplit.
    destruct (read_identifier st1) as [v st2]. apply Hnext.
    exists w. exact Hsplit. }
  destruct (Ascii.eqb char "=" || Ascii.eqb char "!"
            || Ascii.eqb char "<" || Ascii.eqb char ">").
  { pose proof (read_operator_suffix st1) as Hn. rewrite H1 in Hn.
    destruct (read_operator st1) as [op st2].
    destruct (OPERATORS op); [|discriminate]. apply Hnext, Hn. }
  pose proof (lex_advance_suffix st1) as Hadv. rewrite H1 in Hadv.
  destruct (DELIMITERS char); [apply Hnext, Hadv|].
  destruct (Ascii.eqb char "-" && bool_decide (peek_char st1 = Some "-"%char)).
  { pose proof (skip_line_comment_suffix (src st1) (line st1) (column st1))
      as Hk. rewrite H1 in Hk. apply Hnext, Hk. }
  destruct (Ascii.eqb char "/" && bool_decide (peek_char st1 = Some "*"%char)).
  { pose proof (lex_advance_suffix (advance st1).2) as Hadv2.
    set (st2 := snd (advance (snd (advance st1)))) in *.
    destruct (skip_block_comment (src st2) (line st2) (column st2))
      as [st3|] eqn:Hb; [|discriminate].
    apply skip_block_comment_suffix in Hb. apply Hnext.
    eapply suffix_trans; [exact Hb|].
    eapply suffix_trans; [exact Hadv2|exact Hadv]. }
  pose proof (string_forall_suffix _ _ _ Hsuf1 Hascii) as Hc.
  simpl in Hc. apply andb_true_iff in Hc as [Hc _]. rewrite Hc. discriminate.
Qed.

Lemma tokenize_in_scope source :
  string_forall Text.is_ascii source = true ->
  tokenize source <> Unmodelled.
Proof.
  intros Hascii. unfold tokenize.
  pose proof (scan_in_scope source (S (String.length source)) (init source) []
                Hascii (suffix_refl _)) as H.
  destruct (scan (S (String.length source)) (init source) []);
    first [discriminate|exact H].
Qed.

End LexerOrigin.


(** ** The catalog *)

Section CatalogFacts.

Import Catalog.

(** A requested column is listed among the upper-cased column names exactly
    when [TableInfo.get_column] finds it. *)
Lemma str_in_columns (columns : list ColumnInfo) (column_name : string) :
  Text.str_in (Text.upper column_name)
    (map (fun col => Text.upper (col_name col)) columns) = true
  <-> is_Some (get_column columns column_name).
Proof.
  unfold Text.str_in.
  induction columns as [|col cols IH]; simpl.
  - split; [discriminate|]. intros [x Hx]. discriminate.
  - rewrite (String.eqb_sym (Text.upper column_name)).
    destruct (String.eqb (Text.upper (col_name col)) (Text.upper column_name)).
    + simpl. split; [eauto|reflexivity].
    + simpl. exact IH.
Qed.

Lemma check_columns_present table_name (columns : list ColumnInfo) names :
  Forall (fun c => is_Some (get_column columns c)) names ->
  check_columns table_name
    (map (fun col => Text.upper (col_name col)) columns) names = (true, "").
Proof.
  induction 1 as [|c names Hc _ IH]; simpl; [reflexivity|].
  apply str_in_columns in Hc. rewrite Hc. simpl. exact IH.
Qed.

Lemma check_columns_first_missing table_name (columns : list ColumnInfo)
    pre missing post :
  Forall (fun c => is_Some (get_column columns c)) pre ->
  get_column columns missing = None ->
  check_columns table_name
    (map (fun col => Text.upper (col_name col)) columns)
    (pre ++ missing :: post)
  = (false, "Column '" +:+ missing +:+ "' does not exist in table '"
              +:+ table_name +:+ "'").
Proof.
  intros Hpre Hmiss.
  induction Hpre as [|c pre Hc _ IH]; simpl.
  - destruct (Text.str_in (Text.upper missing)
                (map (fun col => Text.upper (col_name col)) columns)) eqn:E.
    + apply str_in_columns in E. rewrite Hmiss in E.
      destruct E as [x Hx]. discriminate.
    + reflexivity.
  - apply str_in_columns in Hc. rewrite Hc. simpl. exact IH.
Qed.

Lemma export_import_column (col : ColumnInfo) :
  import_column (export_column col) = col.
Proof. destruct col. reflexivity. Qed.

Lemma export_import_table (table_info : TableInfo) :
  import_table (export_table table_info) = table_info.
Proof.
  destruct table_info as [name columns].
  unfold import_table, export_table. simpl. f_equal.
  induction columns as [|col cols IH]; simpl; [reflexivity|].
  rewrite export_import_column, IH. reflexivity.
Qed.

(** The loops of [to_dict] and [from_dict] convert every entry in place. *)
Lemma to_dict_fmap (tables : Tables) : to_dict tables = export_table <$> tables.
Proof.
  unfold to_dict.
  apply (map_fold_weak_ind
           (fun r (m : Tables) => r = export_table <$> m)).
  - rewrite fmap_empty. reflexivity.
  - intros i x m r Hi ->. rewrite fmap_insert. reflexivity.
Qed.

Lemma from_dict_fmap (tables : Tables) (data : gmap string TableRecord) :
  from_dict tables data = import_table <$> data.
Proof.
  unfold from_dict, clear.
  apply (map_fold_weak_ind
           (fun r (m : gmap string TableRecord) => r = import_table <$> m)).
  - rewrite fmap_empty. reflexivity.
  - intros i x m r Hi ->. rewrite fmap_insert. reflexivity.
Qed.

End CatalogFacts.

(** * The claims *)

Section Claims.

Import Parser.

(** The scenarios of the specification, run through the embedding. *)
Example tokenize_select :
  Lexer.tokenize "SELECT id FROM t WHERE age >= 18;" =
  Lexer.Tokens
    [mkToken KEYWORD "SELECT" 1 1; mkToken IDENTIFIER "ID" 1 8;
     mkToken KEYWORD "FROM" 1 11; mkToken IDENTIFIER "T" 1 16;
     mkToken KEYWORD "WHERE" 1 18; mkToken IDENTIFIER "AGE" 1 24;
     mkToken GREATER_EQUALS ">=" 1 28; mkToken INTEGER "18" 1 31;
     mkToken SEMICOLON ";" 1 33; mkToken EOF "" 1 34].
Proof. vm_compute. reflexivity. Qed.

Example compile_insert :
  compile "INSERT INTO student(id,name,age) VALUES (1,'Alice',20);" =
  Parsed
    (mkSQLProgram
       [InsertStatement "STUDENT" (Some ["ID"; "NAME"; "AGE"])
          [[Literal (VInt 1) "INT" 1 42; Literal (VStr "Alice") "STRING" 1 44;
            Literal (VInt 20) "INT" 1 52]] 1 1]
       1 1).
Proof. vm_compute. reflexivity. Qed.

Example compile_truncated_where :
  compile "SELECT id FROM student WHERE" =
  ParseFailed
    (ParseError "Expected identifier or literal" (mkToken EOF "" 1 29) None).
Proof. vm_compute. reflexivity. Qed.

Example compile_string_as_table :
  compile "SELECT id FROM 'student';" =
  ParseFailed
    (ParseError "Expected table name after FROM"
       (mkToken STRING "student" 1 16) (Some "IDENTIFIER")).
Proof. vm_compute. reflexivity. Qed.

(** With keyword tokens for UPDATE and SET, [parse_update] builds the node:
    the parser's half of the UPDATE statement is in place. *)
Example parse_update_from_keyword_tokens :
  parse [mkToken KEYWORD "UPDATE" 1 1; mkToken IDENTIFIER "T" 1 8;
         mkToken KEYWORD "SET" 1 10; mkToken IDENTIFIER "A" 1 14;
         mkToken EQUALS "=" 1 16; mkToken INTEGER "1" 1 18;
         mkToken EOF "" 1 19]
  = inr (mkSQLProgram
           [UpdateStatement "T" [("A", Literal (VInt 1) "INT" 1 18)] None 1 1]
           1 1).
Proof. vm_compute. reflexivity. Qed.

(** C1 (the code departs from the claim).  An UPDATE statement of the
    grammar is not parsed into an [UpdateStatement]: the keyword set of the
    tokenizer has no UPDATE, the leading word is lexed as an identifier, and
    [parse_statement] raises a [ParseError] saying that a statement was
    expected. *)
Theorem C1_update_statement_rejected :
  compile "UPDATE t SET a = 1, b = c WHERE d = 2" =
  ParseFailed
    (ParseError "Expected statement" (mkToken IDENTIFIER "UPDATE" 1 1)
       (Some "CREATE, INSERT, SELECT, DELETE, or UPDATE")).
Proof. vm_compute. reflexivity. Qed.

(** C2 (the code departs from the claim).  The words UPDATE and SET, which
    the claim lists among the keywords, are emitted as identifier tokens; the
    stored lexeme is the upper-cased source text. *)
Theorem C2_update_and_set_are_identifiers :
  Lexer.tokenize "UPDATE" =
    Lexer.Tokens [mkToken IDENTIFIER "UPDATE" 1 1; mkToken EOF "" 1 7]
  /\ Lexer.tokenize "set" =
    Lexer.Tokens [mkToken IDENTIFIER "SET" 1 1; mkToken EOF "" 1 4].
Proof. split; vm_compute; reflexivity. Qed.




(** C4 (the code departs from the claim).  On an unterminated string the
    handler around [read_string] appends an error token and raises again, and
    the handler around the whole scan appends a second one: two error tokens,
    not one, end the token sequence. *)
Theorem C4_unterminated_string_two_error_tokens :
  Lexer.tokenize "SELECT 'abc" =
  Lexer.Raised (mkLexerError "Unterminated string literal" 1 8)
    [mkToken KEYWORD "SELECT" 1 1;
     mkToken ERROR "Unterminated string literal" 1 8;
     mkToken ERROR "Unterminated string literal" 1 8].
Proof. vm_compute. reflexivity. Qed.

(** C5, as the claim states it, fails: an INSERT with an empty VALUES tuple
    is accepted, and its single value row is empty. *)
Lemma C5_empty_values_accepted :
  compile "INSERT INTO t VALUES ()" =
  Parsed (mkSQLProgram [InsertStatement "T" None [[]] 1 1] 1 1).
Proof. vm_compute. reflexivity. Qed.

(** C5 (amended).  For every token sequence, every InsertStatement produced
    by parse has exactly one value row (a row that may be empty: the parser
    does not reject an empty VALUES tuple). *)
Theorem C5_insert_has_one_row (tokens : list Token) (p : SQLProgram) :
  parse tokens = inr p -> Forall insert_single_row (statements p).
Proof.
  unfold parse. destruct tokens as [|t ts]; [discriminate|].
  destruct (program (fuel_of (mkState t ts)) [] (mkState t ts))
    as [stmts st1|e] eqn:Hrun; [|discriminate].
  intros H. inversion H; subst. simpl.
  apply program_ok in Hrun as (_ & _ & Hi). apply Hi. constructor.
Qed.

Lemma C5_insert_has_one_row_witness :
  Forall insert_single_row
    (statements
       (mkSQLProgram
          [InsertStatement "T" None
             [[Literal (VInt 1) "INT" 1 1; Literal (VStr "x") "STRING" 1 1]]
             1 1]
          1 1)).
Proof.
  apply (C5_insert_has_one_row
           [mkToken KEYWORD "INSERT" 1 1; mkToken KEYWORD "INTO" 1 1;
            mkToken IDENTIFIER "T" 1 1; mkToken KEYWORD "VALUES" 1 1;
            mkToken LEFT_PAREN "(" 1 1; mkToken INTEGER "1" 1 1;
            mkToken COMMA "," 1 1; mkToken STRING "x" 1 1;
            mkToken RIGHT_PAREN ")" 1 1; mkToken EOF "" 1 1]).
  vm_compute. reflexivity.
Defined.

(** What [parse_create_table] does at CREATE TABLE name ( ): the check after
    the column loop raises. *)
Lemma parse_statement_empty_column_list c t n lp rp tail :
  tok_type c = KEYWORD -> Text.upper (tok_value c) = "CREATE" ->
  tok_type t = KEYWORD -> Text.upper (tok_value t) = "TABLE" ->
  tok_type n = IDENTIFIER ->
  tok_type lp = LEFT_PAREN ->
  tok_type rp = RIGHT_PAREN ->
  parse_statement (mkState c (t :: n :: lp :: rp :: tail)) =
  Fail (ParseError "Table must have at least one column" rp None).
Proof.
  destruct c as [cty cv cl cc], t as [tty tv tl tc], n as [nty nv nl nc],
    lp as [lty lv ll lc], rp as [rty rv rl rc]. simpl.
  intros -> Hc -> Ht -> -> ->.
  unfold parse_statement, parse_create_table, is_keyword, consume, cond, bind,
    current, match_, advance, ret, raise. simpl.
  rewrite Hc. simpl. rewrite Ht. simpl. reflexivity.
Qed.

(** C6.  For every token sequence, every CreateTableStatement returned by
    the parser contains at least one ColumnDef; and where a statement reads
    CREATE TABLE name ( ), with an empty column list, the parser raises the
    ParseError saying that a table must have at least one column, both in
    [parse_statement] and in [parse] when it is the first statement. *)
Theorem C6_create_table_has_a_column :
  (forall tokens p,
     parse tokens = inr p -> Forall create_has_column (statements p))
  /\ (forall c t n lp rp tail,
        tok_type c = KEYWORD -> Text.upper (tok_value c) = "CREATE" ->
        tok_type t = KEYWORD -> Text.upper (tok_value t) = "TABLE" ->
        tok_type n = IDENTIFIER ->
        tok_type lp = LEFT_PAREN ->
        tok_type rp = RIGHT_PAREN ->
        parse_statement (mkState c (t :: n :: lp :: rp :: tail)) =
          Fail (ParseError "Table must have at least one column" rp None)
        /\ parse (c :: t :: n :: lp :: rp :: tail) =
          inl (ParseError "Table must have at least one column" rp None)).
Proof.
  split.
  - intros tokens p. unfold parse. destruct tokens as [|t ts]; [discriminate|].
    destruct (program (fuel_of (mkState t ts)) [] (mkState t ts))
      as [stmts st1|e] eqn:Hrun; [|discriminate].
    intros H. inversion H; subst. simpl.
    apply program_ok in Hrun as (_ & Hc & _). apply Hc. constructor.
  - intros c t n lp rp tail Hc Hcv Ht Htv Hn Hlp Hrp.
    pose proof (parse_statement_empty_column_list c t n lp rp tail
                  Hc Hcv Ht Htv Hn Hlp Hrp) as Hs.
    split; [exact Hs|].
    unfold parse, fuel_of. cbn [program rest length].
    unfold cond at 1. unfold match_ at 1. cbn [current_token]. rewrite Hc.
    cbn [existsb TokenType_eqb orb].
    unfold bind at 1. unfold current at 1.
    unfold cond at 1. unfold match_ at 1. cbn [current_token]. rewrite Hc.
    cbn [existsb TokenType_eqb orb].
    unfold bind at 1. rewrite Hs. reflexivity.
Qed.

Lemma C6_create_table_has_a_column_witness :
  Forall create_has_column
    (statements
       (mkSQLProgram
          [CreateTableStatement "T"
             [mkColumnDef "A" (mkDataType "INT" None 1 1) 1 1] 1
             (ColumnNode (mkColumnDef "A" (mkDataType "INT" None 1 1) 1 1))]
          1 1))
  /\ parse [mkToken KEYWORD "CREATE" 1 1; mkToken KEYWORD "TABLE" 1 8;
            mkToken IDENTIFIER "T" 1 14; mkToken LEFT_PAREN "(" 1 16;
            mkToken RIGHT_PAREN ")" 1 17; mkToken EOF "" 1 18]
     = inl (ParseError "Table must have at least one column"
              (mkToken RIGHT_PAREN ")" 1 17) None).
Proof.
  split.
  - apply (proj1 C6_create_table_has_a_column
             [mkToken KEYWORD "CREATE" 1 1; mkToken KEYWORD "TABLE" 1 1;
              mkToken IDENTIFIER "T" 1 1; mkToken LEFT_PAREN "(" 1 1;
              mkToken IDENTIFIER "A" 1 1; mkToken KEYWORD "INT" 1 1;
              mkToken RIGHT_PAREN ")" 1 1; mkToken EOF "" 1 1]).
    vm_compute. reflexivity.
  - apply (proj2 C6_create_table_has_a_column
             (mkToken KEYWORD "CREATE" 1 1) (mkToken KEYWORD "TABLE" 1 8)
             (mkToken IDENTIFIER "T" 1 14) (mkToken LEFT_PAREN "(" 1 16)
             (mkToken RIGHT_PAREN ")" 1 17) [mkToken EOF "" 1 18]);
      reflexivity.
Defined.

(** C10.  The main loop of [parse] never takes a semicolon for a statement:
    in every state in which it asks for a statement (at the start of the
    input, or after a statement and its optional semicolon), a semicolon as
    current token makes [parse] raise the ParseError saying that a statement
    was expected, at that token.  An input made of a semicolon alone and a
    second semicolon after a statement are the two instances. *)
Theorem C10_semicolon_is_no_statement
    (tokens : list Token) (st : State) (stmts : list Statement) :
  statement_start tokens st stmts ->
  tok_type (current_token st) = SEMICOLON ->
  parse tokens =
  inl (ParseError "Expected statement" (current_token st)
         (Some "CREATE, INSERT, SELECT, DELETE, or UPDATE")).
Proof.
  intros Hstart Hty.
  apply statement_start_run in Hstart as (fuel & Hlt & ->).
  destruct fuel as [|fuel]; [lia|].
  rewrite (program_at_semicolon fuel stmts st Hty). reflexivity.
Qed.

Lemma C10_semicolon_is_no_statement_witness :
  parse [mkToken SEMICOLON ";" 1 1; mkToken EOF "" 1 2]
  = inl (ParseError "Expected statement" (mkToken SEMICOLON ";" 1 1)
           (Some "CREATE, INSERT, SELECT, DELETE, or UPDATE"))
  /\ parse [mkToken KEYWORD "DELETE" 1 1; mkToken KEYWORD "FROM" 1 8;
            mkToken IDENTIFIER "T" 1 13; mkToken SEMICOLON ";" 1 14;
            mkToken SEMICOLON ";" 1 15; mkToken EOF "" 1 16]
     = inl (ParseError "Expected statement" (mkToken SEMICOLON ";" 1 15)
              (Some "CREATE, INSERT, SELECT, DELETE, or UPDATE")).
Proof.
  split.
  - apply (C10_semicolon_is_no_statement _
             (mkState (mkToken SEMICOLON ";" 1 1) [mkToken EOF "" 1 2]) []).
    + apply start_first. reflexivity.
    + reflexivity.
  - apply (C10_semicolon_is_no_statement _
             (mkState (mkToken SEMICOLON ";" 1 15) [mkToken EOF "" 1 16])
             ([] ++ [DeleteStatement "T" None 1 1])).
    + apply (start_next _
               (mkState (mkToken KEYWORD "DELETE" 1 1)
                  [mkToken KEYWORD "FROM" 1 8; mkToken IDENTIFIER "T" 1 13;
                   mkToken SEMICOLON ";" 1 14; mkToken SEMICOLON ";" 1 15;
                   mkToken EOF "" 1 16])
               [] (DeleteStatement "T" None 1 1)
               (mkState (mkToken SEMICOLON ";" 1 14)
                  [mkToken SEMICOLON ";" 1 15; mkToken EOF "" 1 16])).
      * apply start_first. reflexivity.
      * reflexivity.
      * reflexivity.
    + reflexivity.
Defined.

End Claims.

Section CatalogClaims.

Import Catalog.

(** C7.  For every catalog state: [create_table] with a name whose
    upper-cased key is present returns failure and leaves the catalog, and
    with it the metadata stored under that key, as it was; [drop_table] with
    a name whose upper-cased key is absent returns failure and leaves the
    catalog as it was. *)
Theorem C7_failed_create_and_drop_change_nothing
    (tables : Tables) (table_name : string) (columns : list ColumnInfo) :
  (forall table_info,
     tables !! Text.upper table_name = Some table_info ->
     create_table tables table_name columns = (false, tables)
     /\ (create_table tables table_name columns).2 !! Text.upper table_name
        = Some table_info)
  /\ (tables !! Text.upper table_name = None ->
      drop_table tables table_name = (false, tables)).
Proof.
  split.
  - intros table_info H. unfold create_table. rewrite H. simpl.
    split; [reflexivity|exact H].
  - intros H. unfold drop_table. rewrite H. reflexivity.
Qed.

Lemma C7_failed_create_and_drop_change_nothing_witness :
  create_table student_catalog "student" [mkColumnInfo "x" "CHAR" (Some 3%Z) true]
  = (false, student_catalog)
  /\ drop_table student_catalog "course" = (false, student_catalog).
Proof.
  split.
  - apply (proj1 (C7_failed_create_and_drop_change_nothing
                    student_catalog "student"
                    [mkColumnInfo "x" "CHAR" (Some 3%Z) true])
             (mkTableInfo "Student"
                [mkColumnInfo "id" "INT" None true;
                 mkColumnInfo "Name" "VARCHAR" (Some 50%Z) true])).
    reflexivity.
  - apply (proj2 (C7_failed_create_and_drop_change_nothing
                    student_catalog "course" [])).
    reflexivity.
Defined.

(** C8.  For every catalog state, table name and list of column names:
    [validate_columns] returns the table-not-found error naming the table
    when the catalog has no table of that name (case-insensitively);
    otherwise, when a requested column is missing from the table
    (case-insensitively), it returns failure naming the first missing column
    in list order; otherwise it returns success. *)
Theorem C8_validate_columns
    (tables : Tables) (table_name : string) (column_names : list string) :
  (get_table_info tables table_name = None ->
   validate_columns tables table_name column_names
   = (false, "Table '" +:+ table_name +:+ "' does not exist"))
  /\ (forall table_info,
        get_table_info tables table_name = Some table_info ->
        (forall pre missing post,
           column_names = pre ++ missing :: post ->
           Forall (fun c => is_Some (get_column (tbl_columns table_info) c))
             pre ->
           get_column (tbl_columns table_info) missing = None ->
           validate_columns tables table_name column_names
           = (false, "Column '" +:+ missing +:+ "' does not exist in table '"
                       +:+ table_name +:+ "'"))
        /\ (Forall (fun c => is_Some (get_column (tbl_columns table_info) c))
              column_names ->
            validate_columns tables table_name column_names = (true, ""))).
Proof.
  split.
  - intros H. unfold validate_columns. rewrite H. reflexivity.
  - intros table_info H. unfold validate_columns. rewrite H. split.
    + intros pre missing post -> Hpre Hmiss.
      apply check_columns_first_missing; assumption.
    + intros Hall. apply check_columns_present. assumption.
Qed.

Lemma C8_validate_columns_witness :
  validate_columns student_catalog "course" ["id"]
  = (false, "Table 'course' does not exist")
  /\ validate_columns student_catalog "student" ["ID"; "age"; "name"; "grade"]
     = (false, "Column 'age' does not exist in table 'student'")
  /\ validate_columns student_catalog "student" ["NAME"; "Id"] = (true, "").
Proof.
  split; [|split].
  - apply (proj1 (C8_validate_columns student_catalog "course" ["id"])).
    reflexivity.
  - apply (proj1 (proj2 (C8_validate_columns student_catalog "student"
                           ["ID"; "age"; "name"; "grade"])
                    (mkTableInfo "Student"
                       [mkColumnInfo "id" "INT" None true;
                        mkColumnInfo "Name" "VARCHAR" (Some 50%Z) true])
                    eq_refl)
             ["ID"] "age" ["name"; "grade"]).
    + reflexivity.
    + repeat constructor. exists (mkColumnInfo "id" "INT" None true).
      reflexivity.
    + reflexivity.
  - apply (proj2 (proj2 (C8_validate_columns student_catalog "student"
                           ["NAME"; "Id"])
                    (mkTableInfo "Student"
                       [mkColumnInfo "id" "INT" None true;
                        mkColumnInfo "Name" "VARCHAR" (Some 50%Z) true])
                    eq_refl)).
    repeat constructor.
    + exists (mkColumnInfo "Name" "VARCHAR" (Some 50%Z) true). reflexivity.
    + exists (mkColumnInfo "id" "INT" None true). reflexivity.
Defined.

(** C9.  For every catalog state, importing the exported record yields the
    original catalog, whatever the importing catalog held before: the same
    keys, and under each key the same display name and the same columns in
    the same order with the same name, data type, size and nullability. *)
Theorem C9_export_import_roundtrip (tables0 tables : Tables) :
  from_dict tables0 (to_dict tables) = tables.
Proof.
  rewrite from_dict_fmap, to_dict_fmap.
  rewrite <- map_fmap_compose.
  rewrite <- (map_fmap_id tables) at 2.
  apply map_fmap_ext. intros k table_info _. simpl.
  apply export_import_table.
Qed.

End CatalogClaims.

(** * Further properties of the catalog *)

Section CatalogProperties.

Import Catalog.

(** A table created under one spelling of its name is found under every
    spelling that differs only in case, with the display name and the columns
    it was created with. *)
Theorem create_table_then_found
    (tables : Tables) (table_name other : string) (columns : list ColumnInfo) :
  tables !! Text.upper table_name = None ->
  Text.upper other = Text.upper table_name ->
  (create_table tables table_name columns).1 = true
  /\ table_exists (create_table tables table_name columns).2 other = true
  /\ get_table_info (create_table tables table_name columns).2 other
     = Some (mkTableInfo table_name columns).
Proof.
  intros Hnone Heq. unfold create_table, table_exists, get_table_info.
  rewrite Hnone. simpl. rewrite Heq, lookup_insert_eq.
  split; [reflexivity|]. split; [|reflexivity].
  apply bool_decide_eq_true. eauto.
Qed.

Lemma create_table_then_found_witness :
  (create_table student_catalog "Course" [mkColumnInfo "cid" "INT" None true]).1
  = true
  /\ table_exists
       (create_table student_catalog "Course"
          [mkColumnInfo "cid" "INT" None true]).2 "cOURSE" = true
  /\ get_table_info
       (create_table student_catalog "Course"
          [mkColumnInfo "cid" "INT" None true]).2 "cOURSE"
     = Some (mkTableInfo "Course" [mkColumnInfo "cid" "INT" None true]).
Proof.
  apply (create_table_then_found student_catalog "Course" "cOURSE");
    reflexivity.
Defined.

(** Creating or dropping a table leaves every table of another name (up to
    case) as it was, whether the operation succeeds or not. *)
Theorem create_and_drop_leave_other_tables
    (tables : Tables) (table_name other : string) (columns : list ColumnInfo) :
  Text.upper other <> Text.upper table_name ->
  get_table_info (create_table tables table_name columns).2 other
  = get_table_info tables other
  /\ get_table_info (drop_table tables table_name).2 other
     = get_table_info tables other.
Proof.
  intros Hne. unfold create_table, drop_table, get_table_info.
  destruct (tables !! Text.upper table_name); simpl; split; try reflexivity.
  - apply lookup_delete_ne. congruence.
  - apply lookup_insert_ne. congruence.
Qed.

Lemma create_and_drop_leave_other_tables_witness :
  get_table_info
    (create_table student_catalog "Course" [mkColumnInfo "cid" "INT" None true]).2
    "student"
  = get_table_info student_catalog "student"
  /\ get_table_info (drop_table student_catalog "Course").2 "student"
     = get_table_info student_catalog "student".
Proof.
  apply (create_and_drop_leave_other_tables student_catalog "Course" "student").
  discriminate.
Defined.

(** Dropping a table that was just created, under any spelling of its name,
    succeeds and gives back the catalog as it was before the creation. *)
Theorem create_then_drop_restores
    (tables : Tables) (table_name other : string) (columns : list ColumnInfo) :
  tables !! Text.upper table_name = None ->
  Text.upper other = Text.upper table_name ->
  drop_table (create_table tables table_name columns).2 other = (true, tables).
Proof.
  intros Hnone Heq. unfold create_table, drop_table.
  rewrite Hnone. simpl. rewrite Heq, lookup_insert_eq.
  rewrite delete_insert_id by assumption. reflexivity.
Qed.

Lemma create_then_drop_restores_witness :
  drop_table
    (create_table student_catalog "Course" [mkColumnInfo "cid" "INT" None true]).2
    "COURSE"
  = (true, student_catalog).
Proof.
  apply (create_then_drop_restores student_catalog "Course" "COURSE");
    reflexivity.
Defined.

(** Dropping an existing table succeeds; afterwards the table does not exist,
    a second drop fails and changes nothing, and the name can be created
    again. *)
Theorem drop_table_then_absent
    (tables : Tables) (table_name : string) (columns : list ColumnInfo) :
  is_Some (tables !! Text.upper table_name) ->
  (drop_table tables table_name).1 = true
  /\ table_exists (drop_table tables table_name).2 table_name = false
  /\ drop_table (drop_table tables table_name).2 table_name
     = (false, (drop_table tables table_name).2)
  /\ (create_table (drop_table tables table_name).2 table_name columns).1
     = true.
Proof.
  intros [table_info H].
  assert (Hdrop : drop_table tables table_name
                  = (true, delete (Text.upper table_name) tables)).
  { unfold drop_table. rewrite H. reflexivity. }
  rewrite Hdrop. simpl.
  unfold table_exists, drop_table, create_table.
  rewrite lookup_delete_eq. simpl.
  repeat split.
Qed.

Lemma drop_table_then_absent_witness :
  (drop_table student_catalog "student").1 = true
  /\ table_exists (drop_table student_catalog "student").2 "student" = false
  /\ drop_table (drop_table student_catalog "student").2 "student"
     = (false, (drop_table student_catalog "student").2)
  /\ (create_table (drop_table student_catalog "student").2 "student" []).1
     = true.
Proof.
  apply (drop_table_then_absent student_catalog "student" []).
  exists (mkTableInfo "Student"
            [mkColumnInfo "id" "INT" None true;
             mkColumnInfo "Name" "VARCHAR" (Some 50%Z) true]).
  reflexivity.
Defined.

(** [TableInfo.get_column] returns the first column whose name matches the
    requested one up to case, and nothing when no column matches. *)
Theorem get_column_first_match
    (columns : list ColumnInfo) (column_name : string) :
  match get_column columns column_name with
  | Some col =>
      exists pre post,
        columns = pre ++ col :: post
        /\ Text.upper (col_name col) = Text.upper column_name
        /\ Forall (fun c => Text.upper (col_name c) <> Text.upper column_name)
             pre
  | None =>
      Forall (fun c => Text.upper (col_name c) <> Text.upper column_name)
        columns
  end.
Proof.
  induction columns as [|col cols IH]; simpl; [constructor|].
  destruct (String.eqb (Text.upper (col_name col)) (Text.upper column_name))
    eqn:E.
  - apply String.eqb_eq in E. exists [], cols. repeat split; [assumption|].
    constructor.
  - apply String.eqb_neq in E.
    destruct (get_column cols column_name) as [found|].
    + destruct IH as (pre & post & -> & Hm & Hpre).
      exists (col :: pre), post. repeat split; [assumption|].
      constructor; assumption.
    + constructor; assumption.
Qed.

(** The column queries agree: [column_exists] holds exactly when
    [get_column_info] returns a column, when [get_column_type] returns a type,
    and when [validate_columns] accepts the one-element list. *)
Theorem column_queries_agree
    (tables : Tables) (table_name column_name : string) :
  (column_exists tables table_name column_name = true
   <-> is_Some (get_column_info tables table_name column_name))
  /\ (column_exists tables table_name column_name = true
      <-> is_Some (get_column_type tables table_name column_name))
  /\ (column_exists tables table_name column_name = true
      <-> validate_columns tables table_name [column_name] = (true, "")).
Proof.
  unfold column_exists, get_column_type, get_column_info, validate_columns.
  destruct (get_table_info tables table_name) as [table_info|]; simpl.
  - pose proof (str_in_columns (tbl_columns table_info) column_name) as Hin.
    destruct (Text.str_in (Text.upper column_name)
                (map (fun col => Text.upper (col_name col))
                   (tbl_columns table_info)));
      destruct (get_column (tbl_columns table_info) column_name) as [col|];
      simpl.
    + repeat split; intros; eauto.
    + destruct (proj1 Hin eq_refl) as [x Hx]. discriminate.
    + assert (Hf : false = true) by (apply Hin; eauto). discriminate.
    + repeat split; intros H; try discriminate;
        destruct H as [x Hx]; discriminate.
  - repeat split; intros H; try discriminate;
      destruct H as [x Hx]; discriminate.
Qed.

(** [validate_columns] succeeds exactly when the table exists and every
    requested column exists in it; on success its message is empty and on
    failure it is not. *)
Theorem validate_columns_succeeds_iff
    (tables : Tables) (table_name : string) (column_names : list string) :
  (validate_columns tables table_name column_names = (true, "")
   <-> table_exists tables table_name = true
       /\ Forall (fun c => column_exists tables table_name c = true)
            column_names)
  /\ ((validate_columns tables table_name column_names).1 = true
      <-> validate_columns tables table_name column_names = (true, ""))
  /\ ((validate_columns tables table_name column_names).1 = false
      <-> (validate_columns tables table_name column_names).2 <> "").
Proof.
  unfold validate_columns, table_exists, column_exists, get_table_info.
  destruct (tables !! Text.upper table_name) as [table_info|]; simpl.
  - set (names := map (fun col => Text.upper (col_name col))
                    (tbl_columns table_info)).
    assert (Hloop :
      forall cs,
        (check_columns table_name names cs = (true, "")
         <-> Forall (fun c => bool_decide
                       (is_Some (get_column (tbl_columns table_info) c))
                     = true) cs)
        /\ ((check_columns table_name names cs).1 = true
            <-> check_columns table_name names cs = (true, ""))
        /\ ((check_columns table_name names cs).1 = false
            <-> (check_columns table_name names cs).2 <> "")).
    { induction cs as [|c cs IH]; simpl.
      - repeat split; intros; try constructor; try discriminate;
          try congruence.
      - pose proof (str_in_columns (tbl_columns table_info) c) as Hin.
        fold names in Hin.
        destruct (Text.str_in (Text.upper c) names) eqn:Es; simpl.
        + destruct IH as (IH1 & IH2 & IH3).
          split; [|split; assumption].
          rewrite IH1. split.
          * intros F. constructor; [|assumption].
            apply bool_decide_eq_true. apply Hin. reflexivity.
          * intros F. inversion F; assumption.
        + repeat split; intros H; try discriminate;
            inversion H as [|? ? Hc _]; subst;
            apply bool_decide_eq_true in Hc; apply Hin in Hc; discriminate. }
    destruct (Hloop column_names) as (H1 & H2 & H3).
    split; [|split; assumption].
    rewrite H1. split.
    + intros F. split; [reflexivity|assumption].
    + intros [_ F]. assumption.
  - repeat split; intros; try discriminate;
      repeat match goal with
      | Hc : _ /\ _ |- _ => destruct Hc
      end;
      discriminate.
Qed.

(** Catalogs whose keys are the upper-cased display names stay so: the empty
    catalog is one, and [create_table], [drop_table] and [clear] keep the
    property. *)
Theorem keys_normalised_kept
    (tables : Tables) (table_name : string) (columns : list ColumnInfo) :
  keys_normalised (clear tables)
  /\ (keys_normalised tables ->
      keys_normalised (create_table tables table_name columns).2
      /\ keys_normalised (drop_table tables table_name).2).
Proof.
  split.
  - intros k table_info H. unfold clear in H. rewrite lookup_empty in H.
    discriminate.
  - intros Hk. unfold create_table, drop_table.
    destruct (tables !! Text.upper table_name) eqn:E; simpl; split;
      try assumption.
    + intros k table_info H. apply lookup_delete_Some in H as [_ H].
      apply Hk. assumption.
    + intros k table_info H. apply lookup_insert_Some in H as [[<- <-]|[_ H]].
      * reflexivity.
      * apply Hk. assumption.
Qed.

Lemma keys_normalised_kept_witness :
  keys_normalised (clear student_catalog)
  /\ keys_normalised
       (create_table student_catalog "Course"
          [mkColumnInfo "cid" "INT" None true]).2
  /\ keys_normalised (drop_table student_catalog "student").2.
Proof.
  split; [apply (proj1 (keys_normalised_kept student_catalog "x" []))|].
  assert (Hk : keys_normalised student_catalog).
  { intros k table_info H. unfold student_catalog in H.
    apply lookup_singleton_Some in H as [<- <-]. reflexivity. }
  split.
  - apply (proj2 (keys_normalised_kept student_catalog "Course"
                    [mkColumnInfo "cid" "INT" None true]) Hk).
  - apply (proj2 (keys_normalised_kept student_catalog "student" []) Hk).
Defined.

(** In a catalog whose keys are the upper-cased display names, a lookup by
    name returns a table exactly when that table is stored and its display
    name equals the requested name up to case. *)
Theorem lookup_matches_display_name
    (tables : Tables) (table_name : string) (table_info : TableInfo) :
  keys_normalised tables ->
  (get_table_info tables table_name = Some table_info
   <-> (exists k, tables !! k = Some table_info)
       /\ Text.upper (tbl_name table_info) = Text.upper table_name).
Proof.
  intros Hk. unfold get_table_info. split.
  - intros H. split; [eauto|]. symmetry. apply Hk. assumption.
  - intros [[k H] Heq]. rewrite <- Heq. rewrite <- (Hk _ _ H). assumption.
Qed.

Lemma lookup_matches_display_name_witness :
  get_table_info student_catalog "sTuDeNt"
  = Some (mkTableInfo "Student"
            [mkColumnInfo "id" "INT" None true;
             mkColumnInfo "Name" "VARCHAR" (Some 50%Z) true])
  <-> (exists k,
         student_catalog !! k
         = Some (mkTableInfo "Student"
                   [mkColumnInfo "id" "INT" None true;
                    mkColumnInfo "Name" "VARCHAR" (Some 50%Z) true]))
      /\ Text.upper "Student" = Text.upper "sTuDeNt".
Proof.
  apply (lookup_matches_display_name student_catalog "sTuDeNt").
  intros k table_info H. unfold student_catalog in H.
  apply lookup_singleton_Some in H as [<- <-]. reflexivity.
Defined.

(** A key that is not in upper case is out of reach of the lookups by name:
    no name is looked up under it, and [create_table] and [drop_table] never
    change what is stored under it. *)
Theorem lower_case_key_is_out_of_reach
    (tables : Tables) (k table_name : string) (columns : list ColumnInfo) :
  Text.upper k <> k ->
  Text.upper table_name <> k
  /\ (create_table tables table_name columns).2 !! k = tables !! k
  /\ (drop_table tables table_name).2 !! k = tables !! k.
Proof.
  intros Hk.
  assert (Hne : Text.upper table_name <> k).
  { intros <-. apply Hk. apply upper_idem. }
  split; [assumption|]. unfold create_table, drop_table.
  destruct (tables !! Text.upper table_name); simpl; split; try reflexivity.
  - apply lookup_delete_ne. assumption.
  - apply lookup_insert_ne. assumption.
Qed.

Lemma lower_case_key_is_out_of_reach_witness :
  Text.upper "student" <> "student"
  /\ (create_table {["student" := mkTableInfo "student" []]} "student" []).2
       !! "student"
     = ({["student" := mkTableInfo "student" []]} : Tables) !! "student"
  /\ (drop_table {["student" := mkTableInfo "student" []]} "student").2
       !! "student"
     = ({["student" := mkTableInfo "student" []]} : Tables) !! "student".
Proof.
  apply (lower_case_key_is_out_of_reach
           {["student" := mkTableInfo "student" []]} "student" "student" []).
  discriminate.
Defined.

(** [from_dict] replaces the catalog: the result does not depend on what the
    catalog held before, it has exactly the keys of the imported record, and
    under each key the table built from that key's entry. *)
Theorem from_dict_replaces
    (tables0 tables1 : Tables) (data : gmap string TableRecord) :
  from_dict tables0 data = from_dict tables1 data
  /\ dom (from_dict tables0 data) = dom data
  /\ (forall k, from_dict tables0 data !! k = import_table <$> data !! k).
Proof.
  rewrite !from_dict_fmap. split; [reflexivity|]. split.
  - apply dom_fmap_L.
  - intros k. apply lookup_fmap.
Qed.

(** Exporting an imported record gives the record back when each of its
    columns carries the optional keys [size] and [is_nullable]. *)
Theorem import_export_roundtrip
    (tables0 : Tables) (data : gmap string TableRecord) :
  (forall k r, data !! k = Some r -> record_complete r) ->
  to_dict (from_dict tables0 data) = data.
Proof.
  intros Hc. rewrite to_dict_fmap, from_dict_fmap.
  rewrite <- map_fmap_compose.
  rewrite <- (map_fmap_id data) at 2.
  apply map_fmap_ext. intros k r Hr. simpl.
  specialize (Hc k r Hr). destruct r as [name cols].
  unfold export_table, import_table. simpl. f_equal.
  unfold record_complete in Hc. simpl in Hc. clear Hr.
  induction Hc as [|c cs [[s Hs] [n Hn]] _ IH]; simpl; [reflexivity|].
  rewrite IH. f_equal.
  destruct c as [cn cd csz cnl]. simpl in *. subst. reflexivity.
Qed.

Lemma import_export_roundtrip_witness :
  to_dict
    (from_dict student_catalog
       {["T" := mkTableRecord "t"
                  [mkColumnRecord "a" "INT" (Some None) (Some false)]]})
  = {["T" := mkTableRecord "t"
               [mkColumnRecord "a" "INT" (Some None) (Some false)]]}.
Proof.
  apply (import_export_roundtrip student_catalog).
  intros k r H. apply lookup_singleton_Some in H as [_ <-].
  repeat constructor; simpl; eauto.
Defined.

End CatalogProperties.

(** * Further properties of the tokenizer *)

Section LexerProperties.

Import Lexer.

Lemma append_snoc (v : string) (c : ascii) (w : string) :
  Text.snoc v c +:+ w = v +:+ String c w.
Proof.
  unfold Text.snoc. induction v as [|a v IH]; [reflexivity|].
  change (String a ((v +:+ String c "") +:+ w) = String a (v +:+ String c w)).
  f_equal. exact IH.
Qed.

Lemma append_empty (v : string) : v +:+ "" = v.
Proof.
  induction v as [|a v IH]; [reflexivity|].
  change (String a (v +:+ "") = String a v). f_equal. exact IH.
Qed.

(** The readers extend the value by characters of their class. *)
Lemma read_number_from_value s l col v :
  exists w,
    (read_number_from s l col v).1 = v +:+ w
    /\ string_forall Text.isdigit w = true.
Proof.
  revert l col v. induction s as [|c s IH]; intros l col v; simpl.
  - exists "". rewrite append_empty. split; reflexivity.
  - destruct (Text.isdigit c) eqn:Hd.
    + destruct (step_pos c l col) as [l' col'].
      destruct (IH l' col' (Text.snoc v c)) as (w & Hw & Hf).
      exists (String c w). rewrite Hw, append_snoc. simpl. rewrite Hd, Hf.
      split; reflexivity.
    + exists "". simpl. rewrite append_empty. split; reflexivity.
Qed.

Lemma read_identifier_from_value s l col v :
  exists w,
    (read_identifier_from s l col v).1 = v +:+ w
    /\ string_forall (fun c => Text.isalnum c || Ascii.eqb c "_") w = true.
Proof.
  revert l col v. induction s as [|c s IH]; intros l col v; simpl.
  - exists "". rewrite append_empty. split; reflexivity.
  - destruct (Text.isalnum c || Ascii.eqb c "_") eqn:Hd.
    + destruct (step_pos c l col) as [l' col'].
      destruct (IH l' col' (Text.snoc v c)) as (w & Hw & Hf).
      exists (String c w). rewrite Hw, append_snoc. simpl. rewrite Hd, Hf.
      split; reflexivity.
    + exists "". simpl. rewrite append_empty. split; reflexivity.
Qed.

Lemma upper_char_word (c : ascii) :
  Text.isalnum c || Ascii.eqb c "_" = true ->
  word_char (Text.upper_char c) = true.
Proof. destruct c as [[] [] [] [] [] [] [] []]; vm_compute; congruence. Qed.

Lemma upper_char_word_start (c : ascii) :
  Text.isalpha c || Ascii.eqb c "_" = true ->
  Text.isupper (Text.upper_char c) || Ascii.eqb (Text.upper_char c) "_" = true.
Proof. destruct c as [[] [] [] [] [] [] [] []]; vm_compute; congruence. Qed.

Lemma upper_word_chars (w : string) :
  string_forall (fun c => Text.isalnum c || Ascii.eqb c "_") w = true ->
  string_forall word_char (Text.upper w) = true.
Proof.
  induction w as [|c w IH]; simpl; [reflexivity|].
  intros H. apply andb_true_iff in H as [Hc Hw].
  rewrite (upper_char_word c Hc), (IH Hw). reflexivity.
Qed.

Lemma read_number_digits st c r :
  src st = String c r -> Text.isdigit c = true ->
  (read_number st).1 <> ""
  /\ string_forall Text.isdigit (read_number st).1 = true.
Proof.
  intros Hs Hd. unfold read_number. rewrite Hs. simpl. rewrite Hd.
  destruct (step_pos c (line st) (column st)) as [l' col'].
  destruct (read_number_from_value r l' col' (Text.snoc "" c)) as (w & -> & Hf).
  rewrite append_snoc. change ("" +:+ String c w) with (String c w).
  simpl. rewrite Hd, Hf. split; [discriminate|reflexivity].
Qed.

Lemma read_identifier_word st c r :
  src st = String c r -> Text.isalpha c || Ascii.eqb c "_" = true ->
  word_shape (Text.upper (read_identifier st).1).
Proof.
  intros Hs Hd. unfold read_identifier. rewrite Hs. simpl.
  assert (Text.isalnum c || Ascii.eqb c "_" = true) as ->.
  { unfold Text.isalnum. destruct (Text.isalpha c); [reflexivity|].
    simpl in Hd. rewrite Hd. apply orb_true_r. }
  destruct (step_pos c (line st) (column st)) as [l' col'].
  destruct (read_identifier_from_value r l' col' (Text.snoc "" c))
    as (w & -> & Hf).
  rewrite append_snoc. change ("" +:+ String c w) with (String c w).
  simpl. rewrite (upper_char_word_start c Hd), (upper_word_chars w Hf).
  reflexivity.
Qed.

Lemma read_string_error st e :
  read_string st = inr e ->
  e = mkLexerError "Unterminated string literal" (line st) (column st).
Proof.
  unfold read_string. destruct (src st) as [|q rest].
  - intros H. inversion H. reflexivity.
  - destruct (step_pos q (line st) (column st)) as [l1 col1].
    destruct (read_string_loop q rest l1 col1 "") as [v st1].
    destruct (current_char st1); intros H; inversion H. reflexivity.
Qed.

(** The only lexeme [read_operator] returns that is no operator is a lone
    exclamation mark. *)
Lemma read_operator_unknown st char r :
  src st = String char r ->
  Ascii.eqb char "=" || Ascii.eqb char "!" || Ascii.eqb char "<"
  || Ascii.eqb char ">" = true ->
  OPERATORS (read_operator st).1 = None ->
  (read_operator st).1 = "!".
Proof.
  intros Hs Hc. unfold read_operator, peek_char. rewrite Hs.
  assert (Hchar : char = "="%char \/ char = "!"%char \/ char = "<"%char
                  \/ char = ">"%char).
  { repeat (apply orb_true_iff in Hc as [Hc|Hc]);
      apply Ascii.eqb_eq in Hc; auto. }
  destruct Hchar as [-> | [-> | [-> | ->]]]; simpl.
  - discriminate.
  - destruct r as [|n r']; simpl; [reflexivity|].
    destruct (Ascii.eqb n "="); simpl; [discriminate|reflexivity].
  - destruct r as [|n r']; simpl; [discriminate|].
    destruct (Ascii.eqb n "="); simpl; [discriminate|].
    destruct (Ascii.eqb n ">"); simpl; discriminate.
  - destruct r as [|n r']; simpl; [discriminate|].
    destruct (Ascii.eqb n "="); simpl; discriminate.
Qed.

Lemma OPERATORS_well_formed op t l col :
  OPERATORS op = Some t -> token_well_formed (mkToken t op l col).
Proof.
  intros H. unfold token_well_formed. simpl.
  assert (Ht : t = EQUALS \/ t = NOT_EQUALS \/ t = LESS_THAN
               \/ t = GREATER_THAN \/ t = LESS_EQUALS \/ t = GREATER_EQUALS).
  { unfold OPERATORS in H.
    repeat case_match; inversion H; auto 10. }
  destruct Ht as [-> | [-> | [-> | [-> | [-> | ->]]]]]; assumption.
Qed.

Lemma DELIMITERS_well_formed c t l col :
  DELIMITERS c = Some t -> token_well_formed (mkToken t (String c "") l col).
Proof.
  intros H. unfold token_well_formed. simpl.
  assert (Ht : t = COMMA \/ t = SEMICOLON \/ t = LEFT_PAREN
               \/ t = RIGHT_PAREN).
  { unfold DELIMITERS in H. repeat case_match; inversion H; auto. }
  destruct Ht as [-> | [-> | [-> | ->]]]; eauto.
Qed.

Lemma well_formed_snoc tokens t :
  Forall token_well_formed tokens -> token_well_formed t ->
  Forall token_well_formed (tokens ++ [t]).
Proof.
  intros F H. apply Forall_app. split; [assumption|].
  constructor; [assumption|constructor].
Qed.

Lemma scan_outcome_holds fuel : forall st tokens,
  Forall token_well_formed tokens -> scan_outcome (scan fuel st tokens).
Proof.
  induction fuel as [|fuel IH]; intros st tokens F; [exact I|].
  cbn [scan].
  assert (Hfinish : forall st1,
            scan_outcome
              (Tokens (tokens ++ [mkToken EOF "" (line st1) (column st1)]))).
  { intros st1. simpl. eauto. }
  destruct (src st) as [|c0 r0] eqn:Hsrc; [apply Hfinish|].
  set (st1 := skip_whitespace st).
  destruct (src st1) as [|char after] eqn:H1; [apply Hfinish|].
  destruct (Ascii.eqb char "034" || Ascii.eqb char "'").
  { destruct (read_string st1) as [[v st']|e] eqn:Hr.
    - apply IH. apply well_formed_snoc; [assumption|exact I].
    - apply read_string_error in Hr. subst e. simpl.
      split; [left; reflexivity|].
      rewrite removelast_last. split; [assumption|].
      exists tokens. reflexivity. }
  destruct (Text.isdigit char) eqn:Hd.
  { pose proof (read_number_digits st1 char after H1 Hd) as Hn.
    destruct (read_number st1) as [v st']. apply IH.
    apply well_formed_snoc; [assumption|exact Hn]. }
  destruct (Text.isalpha char || Ascii.eqb char "_") eqn:Ha.
  { pose proof (read_identifier_word st1 char after H1 Ha) as Hw.
    destruct (read_identifier st1) as [v st']. apply IH.
    apply well_formed_snoc; [assumption|]. cbn [fst] in Hw.
    destruct (Text.str_in (Text.upper v) KEYWORDS) eqn:Hk;
      unfold token_well_formed; cbn [tok_type tok_value];
      [exact Hk|split; assumption]. }
  destruct (Ascii.eqb char "=" || Ascii.eqb char "!"
            || Ascii.eqb char "<" || Ascii.eqb char ">") eqn:Ho.
  { pose proof (read_operator_unknown st1 char after H1 Ho) as Hu.
    destruct (read_operator st1) as [op st']. simpl in Hu.
    destruct (OPERATORS op) as [ty|] eqn:Hop.
    - apply IH. apply well_formed_snoc; [assumption|].
      apply OPERATORS_well_formed. assumption.
    - rewrite (Hu eq_refl). simpl.
      split; [right; right; left; reflexivity|].
      split; [assumption|exact I]. }
  destruct (DELIMITERS char) as [ty|] eqn:Hdel.
  { apply IH. apply well_formed_snoc; [assumption|].
    apply DELIMITERS_well_formed. assumption. }
  destruct (Ascii.eqb char "-" && bool_decide (peek_char st1 = Some "-"%char)).
  { apply IH. assumption. }
  destruct (Ascii.eqb char "/" && bool_decide (peek_char st1 = Some "*"%char)).
  { set (st2 := snd (advance (snd (advance st1)))).
    destruct (skip_block_comment (src st2) (line st2) (column st2))
      as [st'|]; [apply IH; assumption|].
    simpl. split; [right; left; reflexivity|]. split; [assumption|exact I]. }
  destruct (Text.is_ascii char) eqn:Hascii; [|exact I].
  simpl. split; [right; right; right; exists char; split; [assumption|reflexivity]|].
  split; [assumption|exact I].
Qed.

(** On a source of ASCII characters, a successful [tokenize] returns
    well-formed tokens closed by exactly one end-of-input token: no
    end-of-input or error token occurs before the last position, keywords
    belong to the keyword set, identifiers are upper-cased words outside it,
    integers are non-empty digit runs, and operators and delimiters carry
    their own lexeme.  (Outside ASCII the letters and digits of Python are
    those of Unicode and these shapes do not apply.) *)
Theorem tokenize_tokens_well_formed (source : string) (tokens : list Token) :
  string_forall Text.is_ascii source = true ->
  tokenize source = Tokens tokens ->
  exists body l col,
    tokens = body ++ [mkToken EOF "" l col]
    /\ Forall token_well_formed body.
Proof.
  intros _. unfold tokenize.
  pose proof (scan_outcome_holds (S (String.length source)) (init source) []
                ltac:(constructor)) as H.
  destruct (scan (S (String.length source)) (init source) []);
    try discriminate.
  intros Heq. inversion Heq; subst. exact H.
Qed.

Lemma tokenize_tokens_well_formed_witness :
  exists body l col,
    [mkToken KEYWORD "SELECT" 1 1; mkToken IDENTIFIER "A_1" 1 8;
     mkToken LESS_EQUALS "<=" 1 12; mkToken INTEGER "20" 1 15;
     mkToken EOF "" 1 17]
    = body ++ [mkToken EOF "" l col]
    /\ Forall token_well_formed body.
Proof.
  apply (tokenize_tokens_well_formed "select a_1 <= 20").
  - vm_compute. reflexivity.
  - vm_compute. reflexivity.
Defined.



End LexerProperties.

(** ** Token positions *)

Section LexerPositions.

Import Lexer.

Ltac pos_lia := unfold pos_lt, pos_le in *; simpl in *; lia.

Lemma step_pos_moves c l col l1 col1 :
  step_pos c l col = (l1, col1) -> 1 <= col1 /\ pos_lt l col l1 col1.
Proof.
  unfold step_pos. destruct (Ascii.eqb c "010"); intros H; inversion H;
    pos_lia.
Qed.

Lemma skip_whitespace_from_pos s l col :
  (1 <= col -> 1 <= column (skip_whitespace_from s l col))
  /\ pos_le l col (line (skip_whitespace_from s l col))
       (column (skip_whitespace_from s l col)).
Proof.
  revert l col. induction s as [|c s IH]; intros l col; simpl; [pos_lia|].
  destruct (Text.isspace c); [|pos_lia].
  destruct (step_pos c l col) as [l1 col1] eqn:E.
  apply step_pos_moves in E. specialize (IH l1 col1). pos_lia.
Qed.

Lemma read_string_loop_pos q s l col v v1 st1 :
  read_string_loop q s l col v = (v1, st1) ->
  (1 <= col -> 1 <= column st1) /\ pos_le l col (line st1) (column st1).
Proof.
  remember (String.length s) as n eqn:Hn.
  revert s l col v Hn.
  induction n as [n IH] using lt_wf_ind.
  intros s l col v Hn H. destruct s as [|c s]; simpl in H.
  - inversion H; subst. pos_lia.
  - destruct (Ascii.eqb c q).
    { inversion H; subst. pos_lia. }
    destruct (step_pos c l col) as [l1 col1] eqn:E1.
    apply step_pos_moves in E1.
    destruct (Ascii.eqb c "\").
    + destruct s as [|n' s'].
      * simpl in H. inversion H; subst. pos_lia.
      * destruct (step_pos n' l1 col1) as [l2 col2] eqn:E2.
        apply step_pos_moves in E2.
        eapply IH in H; [| |reflexivity]; simpl in *; [pos_lia|lia].
    + eapply IH in H; [| |reflexivity]; simpl in *; [pos_lia|lia].
Qed.

Lemma read_string_pos st v st1 :
  read_string st = inl (v, st1) ->
  1 <= column st1 /\ pos_lt (line st) (column st) (line st1) (column st1).
Proof.
  unfold read_string. destruct (src st) as [|q s]; [discriminate|].
  destruct (step_pos q (line st) (column st)) as [l1 col1] eqn:E1.
  apply step_pos_moves in E1.
  destruct (read_string_loop q s l1 col1 "") as [v1 st2] eqn:Hloop.
  apply read_string_loop_pos in Hloop.
  unfold current_char, advance.
  destruct (src st2) as [|c r]; [discriminate|].
  destruct (step_pos c (line st2) (column st2)) as [l3 col3] eqn:E3.
  apply step_pos_moves in E3.
  intros H. inversion H; subst. pos_lia.
Qed.

Lemma read_number_from_pos s l col v :
  (1 <= col -> 1 <= column (read_number_from s l col v).2)
  /\ pos_le l col (line (read_number_from s l col v).2)
       (column (read_number_from s l col v).2).
Proof.
  revert l col v. induction s as [|c s IH]; intros l col v; simpl; [pos_lia|].
  destruct (Text.isdigit c); [|pos_lia].
  destruct (step_pos c l col) as [l1 col1] eqn:E.
  apply step_pos_moves in E. specialize (IH l1 col1 (Text.snoc v c)). pos_lia.
Qed.

Lemma read_identifier_from_pos s l col v :
  (1 <= col -> 1 <= column (read_identifier_from s l col v).2)
  /\ pos_le l col (line (read_identifier_from s l col v).2)
       (column (read_identifier_from s l col v).2).
Proof.
  revert l col v. induction s as [|c s IH]; intros l col v; simpl; [pos_lia|].
  destruct (Text.isalnum c || Ascii.eqb c "_"); [|pos_lia].
  destruct (step_pos c l col) as [l1 col1] eqn:E.
  apply step_pos_moves in E. specialize (IH l1 col1 (Text.snoc v c)). pos_lia.
Qed.

Lemma read_number_pos st c r :
  src st = String c r -> Text.isdigit c = true ->
  1 <= column (read_number st).2
  /\ pos_lt (line st) (column st) (line (read_number st).2)
       (column (read_number st).2).
Proof.
  intros Hs Hd. unfold read_number. rewrite Hs. simpl. rewrite Hd.
  destruct (step_pos c (line st) (column st)) as [l1 col1] eqn:E.
  apply step_pos_moves in E.
  pose proof (read_number_from_pos r l1 col1 (Text.snoc "" c)). pos_lia.
Qed.

Lemma read_identifier_pos st c r :
  src st = String c r -> Text.isalpha c || Ascii.eqb c "_" = true ->
  1 <= column (read_identifier st).2
  /\ pos_lt (line st) (column st) (line (read_identifier st).2)
       (column (read_identifier st).2).
Proof.
  intros Hs Hd. unfold read_identifier. rewrite Hs. simpl.
  assert (Text.isalnum c || Ascii.eqb c "_" = true) as ->.
  { unfold Text.isalnum. destruct (Text.isalpha c); [reflexivity|].
    simpl in Hd. rewrite Hd. apply orb_true_r. }
  destruct (step_pos c (line st) (column st)) as [l1 col1] eqn:E.
  apply step_pos_moves in E.
  pose proof (read_identifier_from_pos r l1 col1 (Text.snoc "" c)). pos_lia.
Qed.

Lemma advance_pos st c r :
  src st = String c r ->
  1 <= column (advance st).2
  /\ pos_lt (line st) (column st) (line (advance st).2) (column (advance st).2).
Proof.
  intros Hs. unfold advance. rewrite Hs.
  destruct (step_pos c (line st) (column st)) as [l1 col1] eqn:E.
  apply step_pos_moves in E. pos_lia.
Qed.

Lemma advance_pos_le st :
  (1 <= column st -> 1 <= column (advance st).2)
  /\ pos_le (line st) (column st) (line (advance st).2) (column (advance st).2).
Proof.
  destruct (src st) as [|c r] eqn:Hs.
  - unfold advance. rewrite Hs. pos_lia.
  - pose proof (advance_pos st c r Hs). pos_lia.
Qed.

Lemma read_operator_pos st c r :
  src st = String c r ->
  1 <= column (read_operator st).2
  /\ pos_lt (line st) (column st) (line (read_operator st).2)
       (column (read_operator st).2).
Proof.
  intros Hs. pose proof (advance_pos st c r Hs) as H1.
  pose proof (advance_pos_le (advance st).2) as H2.
  unfold read_operator. rewrite Hs.
  repeat case_match; simpl; pos_lia.
Qed.

Lemma skip_line_comment_pos s l col :
  (1 <= col -> 1 <= column (skip_line_comment s l col))
  /\ pos_le l col (line (skip_line_comment s l col))
       (column (skip_line_comment s l col)).
Proof.
  revert l col. induction s as [|c s IH]; intros l col; simpl; [pos_lia|].
  destruct (Ascii.eqb c "010"); [pos_lia|].
  destruct (step_pos c l col) as [l1 col1] eqn:E.
  apply step_pos_moves in E. specialize (IH l1 col1). pos_lia.
Qed.

Lemma skip_block_comment_pos s l col st1 :
  skip_block_comment s l col = Some st1 ->
  (1 <= col -> 1 <= column st1) /\ pos_le l col (line st1) (column st1).
Proof.
  revert l col. induction s as [|c s IH]; intros l col; simpl; [discriminate|].
  destruct (step_pos c l col) as [l1 col1] eqn:E1.
  apply step_pos_moves in E1.
  destruct s as [|c2 s'].
  - simpl. discriminate.
  - destruct (Ascii.eqb c "*" && Ascii.eqb c2 "/").
    + destruct (step_pos c2 l1 col1) as [l2 col2] eqn:E2.
      apply step_pos_moves in E2.
      intros H. inversion H; subst. pos_lia.
    + intros H. apply IH in H. pos_lia.
Qed.

Lemma sorted_snoc (tokens : list Token) (t : Token) :
  StronglySorted token_before tokens ->
  Forall (fun a => token_before a t) tokens ->
  StronglySorted token_before (tokens ++ [t]).
Proof.
  induction 1 as [|a tokens Hs IH Ha]; intros F; simpl.
  - constructor; constructor.
  - inversion F; subst. constructor; [apply IH; assumption|].
    apply Forall_app. split; [assumption|].
    constructor; [assumption|constructor].
Qed.

(** The loop keeps the tokens in reading order, all of them before the scan
    cursor. *)
Lemma scan_positions fuel : forall st tokens tokens1,
  1 <= line st -> 1 <= column st ->
  Forall token_one_based tokens ->
  Forall (fun a => pos_lt (tok_line a) (tok_column a) (line st) (column st))
    tokens ->
  StronglySorted token_before tokens ->
  scan fuel st tokens = Tokens tokens1 ->
  Forall token_one_based tokens1 /\ StronglySorted token_before tokens1.
Proof.
  induction fuel as [|fuel IH]; intros st tokens tokens1 Hl Hc F1 Fb Hs H;
    cbn [scan] in H; [discriminate|].
  assert (Hfinish : forall st1,
            1 <= line st1 -> 1 <= column st1 ->
            pos_le (line st) (column st) (line st1) (column st1) ->
            Tokens (tokens ++ [mkToken EOF "" (line st1) (column st1)])
            = Tokens tokens1 ->
            Forall token_one_based tokens1
            /\ StronglySorted token_before tokens1).
  { intros st1 Hl1 Hc1 Hle Heq. inversion Heq; subst. split.
    - apply Forall_app. split; [assumption|].
      constructor; [split; assumption|constructor].
    - apply sorted_snoc; [assumption|].
      eapply Forall_impl; [exact Fb|]. intros a Ha. unfold token_before.
      pos_lia. }
  assert (Hnext : forall ty v st2,
            1 <= column st2 ->
            pos_lt (line (skip_whitespace st)) (column (skip_whitespace st))
              (line st2) (column st2) ->
            scan fuel st2
              (tokens ++ [mkToken ty v (line (skip_whitespace st))
                            (column (skip_whitespace st))])
            = Tokens tokens1 ->
            Forall token_one_based tokens1
            /\ StronglySorted token_before tokens1).
  { intros ty v st2 Hc2 Hlt Hrun.
    pose proof (skip_whitespace_from_pos (src st) (line st) (column st))
      as [Hw1 Hw2]. fold (skip_whitespace st) in Hw1, Hw2.
    eapply IH; [| | | | |exact Hrun].
    - pos_lia.
    - assumption.
    - apply Forall_app. split; [assumption|].
      constructor; [|constructor]. split; simpl; [pos_lia|auto].
    - apply Forall_app. split.
      + eapply Forall_impl; [exact Fb|]. intros a Ha. pos_lia.
      + constructor; [|constructor]. simpl. assumption.
    - apply sorted_snoc; [assumption|].
      eapply Forall_impl; [exact Fb|]. intros a Ha. unfold token_before.
      pos_lia. }
  assert (Hskip : forall st2,
            (1 <= column (skip_whitespace st) -> 1 <= column st2) ->
            pos_le (line (skip_whitespace st)) (column (skip_whitespace st))
              (line st2) (column st2) ->
            scan fuel st2 tokens = Tokens tokens1 ->
            Forall token_one_based tokens1
            /\ StronglySorted token_before tokens1).
  { intros st2 Hc2 Hle Hrun.
    pose proof (skip_whitespace_from_pos (src st) (line st) (column st))
      as [Hw1 Hw2]. fold (skip_whitespace st) in Hw1, Hw2.
    eapply IH; [| | | | |exact Hrun]; try assumption.
    - pos_lia.
    - auto.
    - eapply Forall_impl; [exact Fb|]. intros a Ha. pos_lia. }
  pose proof (skip_whitespace_from_pos (src st) (line st) (column st))
    as [Hw1 Hw2]. fold (skip_whitespace st) in Hw1, Hw2.
  destruct (src st) as [|c0 r0] eqn:Hsrc.
  { apply (Hfinish st); [assumption|assumption|pos_lia|exact H]. }
  set (st1 := skip_whitespace st) in *.
  destruct (src st1) as [|char after] eqn:H1.
  { apply (Hfinish st1); [pos_lia|auto|assumption|exact H]. }
  destruct (Ascii.eqb char "034" || Ascii.eqb char "'").
  { destruct (read_string st1) as [[v st2]|e] eqn:Hr; [|discriminate].
    apply read_string_pos in Hr as [Hr1 Hr2].
    eapply Hnext; [| |exact H]; assumption. }
  destruct (Text.isdigit char) eqn:Hd.
  { pose proof (read_number_pos st1 char after H1 Hd) as [Hn1 Hn2].
    destruct (read_number st1) as [v st2].
    eapply Hnext; [| |exact H]; assumption. }
  destruct (Text.isalpha char || Ascii.eqb char "_") eqn:Ha.
  { pose proof (read_identifier_pos st1 char after H1 Ha) as [Hn1 Hn2].
    destruct (read_identifier st1) as [v st2].
    eapply Hnext; [| |exact H]; assumption. }
  destruct (Ascii.eqb char "=" || Ascii.eqb char "!"
            || Ascii.eqb char "<" || Ascii.eqb char ">").
  { pose proof (read_operator_pos st1 char after H1) as [Hn1 Hn2].
    destruct (read_operator st1) as [op st2].
    destruct (OPERATORS op); [|discriminate].
    eapply Hnext; [| |exact H]; assumption. }
  pose proof (advance_pos st1 char after H1) as [Ha1 Ha2].
  destruct (DELIMITERS char).
  { eapply Hnext; [| |exact H]; assumption. }
  destruct (Ascii.eqb char "-" && bool_decide (peek_char st1 = Some "-"%char)).
  { pose proof (skip_line_comment_pos (String char after) (line st1)
                  (column st1)) as [Hk1 Hk2].
    eapply Hskip; [| |exact H]; assumption. }
  destruct (Ascii.eqb char "/" && bool_decide (peek_char st1 = Some "*"%char)).
  { pose proof (advance_pos_le (advance st1).2) as [Hb1 Hb2].
    set (st2 := snd (advance (snd (advance st1)))) in *.
    destruct (skip_block_comment (src st2) (line st2) (column st2))
      as [st3|] eqn:Hb; [|discriminate].
    apply skip_block_comment_pos in Hb as [Hb3 Hb4].
    eapply Hskip; [| |exact H]; [intros _; auto|pos_lia]. }
  destruct (Text.is_ascii char); discriminate.
Qed.

(** The tokens of a successful [tokenize], the closing end-of-input token
    included, carry lines and columns counted from 1 and stand in strictly
    increasing source position. *)
Theorem tokenize_positions_increase (source : string) (tokens : list Token) :
  tokenize source = Tokens tokens ->
  Forall token_one_based tokens /\ StronglySorted token_before tokens.
Proof.
  unfold tokenize.
  destruct (scan (S (String.length source)) (init source) []) eqn:H;
    try discriminate.
  intros Heq. inversion Heq; subst.
  eapply scan_positions; [| | | | |exact H]; simpl; try lia; constructor.
Qed.

Lemma tokenize_positions_increase_witness :
  Forall token_one_based
    [mkToken IDENTIFIER "A" 1 1; mkToken COMMA "," 2 3;
     mkToken STRING "x" 2 5; mkToken EOF "" 2 8]
  /\ StronglySorted token_before
       [mkToken IDENTIFIER "A" 1 1; mkToken COMMA "," 2 3;
        mkToken STRING "x" 2 5; mkToken EOF "" 2 8].
Proof.
  apply (tokenize_positions_increase
           (String "a" (String "010" "  , 'x'"))).
  vm_compute. reflexivity.
Defined.

End LexerPositions.

(** ** Literals and blank input *)

Section LexerLiterals.

Import Lexer.

Lemma read_string_loop_plain q body rest : forall l col v,
  string_forall (fun c => negb (Ascii.eqb c q) && negb (Ascii.eqb c "\")) body
  = true ->
  exists l1 col1,
    read_string_loop q (body +:+ String q rest) l col v
    = (v +:+ body, {| src := String q rest; line := l1; column := col1 |}).
Proof.
  induction body as [|c body IH]; intros l col v Hok.
  - change ("" +:+ String q rest) with (String q rest). simpl.
    rewrite Ascii.eqb_refl, append_empty. eauto.
  - change (String c body +:+ String q rest)
      with (String c (body +:+ String q rest)).
    simpl in Hok. apply andb_true_iff in Hok as [Hc Hbody].
    apply andb_true_iff in Hc as [Hq Hb].
    apply negb_true_iff in Hq, Hb.
    cbn [read_string_loop]. rewrite Hq, Hb.
    destruct (step_pos c l col) as [l1 col1].
    destruct (IH l1 col1 (Text.snoc v c) Hbody) as (l2 & col2 & ->).
    rewrite append_snoc. eauto.
Qed.

Lemma scan_at_string fuel st tokens q r v st1 :
  src st = String q r -> Text.isspace q = false ->
  Ascii.eqb q "034" || Ascii.eqb q "'" = true ->
  read_string st = inl (v, st1) ->
  scan (S fuel) st tokens
  = scan fuel st1 (tokens ++ [mkToken STRING v (line st) (column st)]).
Proof.
  destruct st as [s l col]. simpl. intros -> Hspace Hquote Hread.
  cbn [scan src]. unfold skip_whitespace.
  cbn [src line column skip_whitespace_from]. rewrite Hspace.
  cbn [src line column]. rewrite Hquote, Hread. reflexivity.
Qed.

Lemma scan_at_end fuel st tokens :
  src st = "" ->
  scan (S fuel) st tokens
  = Tokens (tokens ++ [mkToken EOF "" (line st) (column st)]).
Proof. intros H. cbn [scan]. rewrite H. reflexivity. Qed.

Lemma length_append_quote (a : string) (q : ascii) (b : string) :
  String.length (a +:+ String q b) <> 0.
Proof.
  destruct a as [|c a]; [discriminate|].
  change (String c a +:+ String q b) with (String c (a +:+ String q b)).
  discriminate.
Qed.

(** A quoted text that contains neither its quote character nor a backslash
    is lexed as one string token whose value is the text between the quotes,
    unchanged, followed by the end-of-input token. *)
Theorem plain_string_literal (q : ascii) (body : string) :
  q = "'"%char \/ q = "034"%char ->
  string_forall (fun c => negb (Ascii.eqb c q) && negb (Ascii.eqb c "\")) body
  = true ->
  exists l col,
    tokenize (String q (body +:+ String q ""))
    = Tokens [mkToken STRING body 1 1; mkToken EOF "" l col].
Proof.
  intros Hq Hok.
  assert (Hstep : step_pos q 1 1 = (1, 2)).
  { destruct Hq as [-> | ->]; reflexivity. }
  assert (Hspace : Text.isspace q = false).
  { destruct Hq as [-> | ->]; reflexivity. }
  assert (Hquote : Ascii.eqb q "034" || Ascii.eqb q "'" = true).
  { destruct Hq as [-> | ->]; reflexivity. }
  destruct (read_string_loop_plain q body "" 1 2 "" Hok) as (l1 & col1 & Hloop).
  change ("" +:+ body) with body in Hloop.
  destruct (step_pos q l1 col1) as [l2 col2] eqn:Hend.
  assert (Hread : read_string (init (String q (body +:+ String q "")))
                  = inl (body, {| src := ""; line := l2; column := col2 |})).
  { unfold read_string, init. cbn [src line column]. rewrite Hstep, Hloop.
    unfold current_char, advance. cbn [src line column]. rewrite Hend.
    reflexivity. }
  exists l2, col2. unfold tokenize.
  change (String.length (String q (body +:+ String q "")))
    with (S (String.length (body +:+ String q ""))).
  rewrite (scan_at_string _ (init (String q (body +:+ String q ""))) []
             q (body +:+ String q "") body _ eq_refl Hspace Hquote Hread).
  pose proof (length_append_quote body q "") as Hlen.
  destruct (String.length (body +:+ String q "")) as [|n]; [congruence|].
  rewrite scan_at_end by reflexivity. reflexivity.
Qed.

Lemma plain_string_literal_witness :
  exists l col,
    tokenize "'Hello, World'"
    = Tokens [mkToken STRING "Hello, World" 1 1; mkToken EOF "" l col].
Proof.
  apply (plain_string_literal "'" "Hello, World"); [left|]; reflexivity.
Defined.

Lemma skip_whitespace_from_blank s : forall l col,
  string_forall Text.isspace s = true ->
  src (skip_whitespace_from s l col) = "".
Proof.
  induction s as [|c s IH]; intros l col H; simpl; [reflexivity|].
  simpl in H. apply andb_true_iff in H as [Hc Hs]. rewrite Hc.
  destruct (step_pos c l col) as [l1 col1]. apply IH. assumption.
Qed.

Lemma scan_blank fuel st tokens c s :
  src st = String c s -> src (skip_whitespace st) = "" ->
  scan (S fuel) st tokens
  = Tokens (tokens ++ [mkToken EOF "" (line (skip_whitespace st))
                         (column (skip_whitespace st))]).
Proof. intros Hs Hb. cbn [scan]. rewrite Hs. cbv zeta. rewrite Hb. reflexivity. Qed.

(** A source made of whitespace only, the empty source included, gives the
    end-of-input token and nothing else. *)
Theorem blank_source_only_eof (source : string) :
  string_forall Text.isspace source = true ->
  exists l col, tokenize source = Tokens [mkToken EOF "" l col].
Proof.
  intros H. unfold tokenize.
  destruct source as [|c s] eqn:E.
  - rewrite scan_at_end by reflexivity. eauto.
  - rewrite <- E in *.
    rewrite (scan_blank _ (init source) [] c s).
    + eauto.
    + rewrite E. reflexivity.
    + unfold skip_whitespace. apply skip_whitespace_from_blank. assumption.
Qed.

Lemma blank_source_only_eof_witness :
  exists l col,
    tokenize (String " " (String "009" (String "010" " ")))
    = Tokens [mkToken EOF "" l col].
Proof.
  apply (blank_source_only_eof (String " " (String "009" (String "010" " ")))).
  reflexivity.
Defined.

End LexerLiterals.

(** * Further properties of the parser *)

Section ParserProperties.

Import Parser.

(** ** The shape of the nodes *)

Ltac monad_inv :=
  repeat match goal with
  | H : bind _ _ _ = Ok _ _ |- _ =>
      let a := fresh "a" in
      let s := fresh "s" in
      let Hm := fresh "Hm" in
      apply bind_Ok in H as (a & s & Hm & H)
  | H : cond _ _ _ _ = Ok _ _ |- _ => unfold cond in H
  | H : (if ?c then _ else _) = Ok _ _ |- _ =>
      let E := fresh "E" in destruct c eqn:E
  | H : ret _ _ = Ok _ _ |- _ => inversion H; subst; clear H
  | H : current _ = Ok _ _ |- _ => inversion H; subst; clear H
  | H : raise _ _ = Ok _ _ |- _ => discriminate H
  | H : Fail _ = Ok _ _ |- _ => discriminate H
  | H : (fun _ => _) _ = Ok _ _ |- _ => cbv beta in H
  end.

Ltac stmt_inv :=
  repeat (monad_inv;
          match goal with
          | H : match ?x with [] => _ | _ :: _ => _ end _ = Ok _ _ |- _ =>
              destruct x
          | H : (if ?c then _ else _) _ = Ok _ _ |- _ =>
              let E := fresh "E" in destruct c eqn:E
          end);
  monad_inv.

(** Replace the successful runs of [lem]'s method by what [lem] says. *)
Ltac have lem :=
  repeat match goal with
  | H : _ = Ok _ _ |- _ => apply lem in H
  end.

(** The same for a loop, whose lemma also asks for the accumulated list. *)
Ltac have_loop lem :=
  repeat match goal with
  | H : _ = Ok _ _ |- _ =>
      let N := fresh "Hloop" in
      first [pose proof (lem _ _ _ _ H) as N
            |pose proof (lem _ _ _ _ _ H) as N];
      clear H
  end.

Ltac grow :=
  repeat match goal with
  | I : Forall _ (_ ++ [_]) -> _ |- _ => apply I
  | I : Forall _ [] -> _ |- _ => specialize (I ltac:(constructor))
  | |- Forall _ (_ ++ [_]) => apply Forall_app; split; [assumption|]
  | |- Forall _ [_] => constructor; [|constructor]
  end.

Lemma parse_literal_shape st e st1 :
  parse_literal st = Ok e st1 -> literal_shape e.
Proof.
  unfold parse_literal. intros H. monad_inv; reflexivity.
Qed.

Lemma parse_primary_shape st e st1 :
  parse_primary st = Ok e st1 -> primary_shape e.
Proof.
  unfold parse_primary. intros H. monad_inv.
  - left. exact I.
  - right. eapply parse_literal_shape. eassumption.
Qed.

Lemma parse_comparison_shape st e st1 :
  parse_comparison st = Ok e st1 -> comparison_shape e.
Proof.
  unfold parse_comparison. intros H. monad_inv; have parse_primary_shape.
  - simpl. split; assumption.
  - match goal with Hp : primary_shape ?x |- comparison_shape ?x =>
      destruct x; simpl; try exact Hp; destruct Hp as [[]|[]]
    end.
Qed.

Lemma parse_where_shape st w st1 :
  parse_where st = Ok w st1 -> where_shape w.
Proof.
  unfold parse_where, parse_expression. intros H.
  monad_inv; have parse_comparison_shape; simpl; auto.
Qed.

Lemma parse_data_type_shape st d st1 :
  parse_data_type st = Ok d st1 -> data_type_shape d.
Proof.
  unfold parse_data_type. intros H. monad_inv.
  - unfold data_type_shape, DataType_init, is_upper. simpl.
    rewrite !upper_idem. split; [reflexivity|]. intros _.
    apply andb_true_iff in E0 as [E0 _]. exact E0.
  - unfold data_type_shape, DataType_init, is_upper. simpl.
    rewrite !upper_idem. split; [reflexivity|]. congruence.
Qed.

Lemma parse_column_definition_shape st c st1 :
  parse_column_definition st = Ok c st1 -> data_type_shape (cd_data_type c).
Proof.
  unfold parse_column_definition. intros H.
  monad_inv; have parse_data_type_shape; simpl; assumption.
Qed.

Lemma column_list_shape fuel : forall columns st columns1 st1,
  column_list fuel columns st = Ok columns1 st1 ->
  Forall (fun c => data_type_shape (cd_data_type c)) columns ->
  Forall (fun c => data_type_shape (cd_data_type c)) columns1.
Proof.
  induction fuel as [|fuel IH]; intros columns st columns1 st1 H;
    cbn [column_list] in H; [discriminate|].
  monad_inv; have_loop IH; have parse_column_definition_shape; intros F; grow;
    assumption.
Qed.

Lemma insert_values_shape fuel : forall row st row1 st1,
  insert_values fuel row st = Ok row1 st1 ->
  Forall literal_shape row -> Forall literal_shape row1.
Proof.
  induction fuel as [|fuel IH]; intros row st row1 st1 H;
    cbn [insert_values] in H; [discriminate|].
  monad_inv; have_loop IH; have parse_literal_shape; intros F; grow; assumption.
Qed.

Lemma select_items_shape fuel : forall items st items1 st1,
  select_items fuel items st = Ok items1 st1 ->
  Forall identifier_shape items -> Forall identifier_shape items1.
Proof.
  induction fuel as [|fuel IH]; intros items st items1 st1 H;
    cbn [select_items] in H; [discriminate|].
  monad_inv; have_loop IH; intros F; grow; first [assumption|exact I].
Qed.

Lemma update_assignments_shape fuel : forall asg st asg1 st1,
  update_assignments fuel asg st = Ok asg1 st1 ->
  Forall (fun a => primary_shape (snd a)) asg ->
  Forall (fun a => primary_shape (snd a)) asg1.
Proof.
  induction fuel as [|fuel IH]; intros asg st asg1 st1 H;
    cbn [update_assignments] in H; [discriminate|].
  monad_inv; have_loop IH; have parse_primary_shape; intros F; grow; assumption.
Qed.

Lemma parse_statement_stmt_shape st s st1 :
  parse_statement st = Ok s st1 -> stmt_shape s.
Proof.
  unfold parse_statement. intros H. stmt_inv.
  - unfold parse_create_table in H. stmt_inv.
    have_loop column_list_shape. simpl. grow. assumption.
  - unfold parse_insert in H.
    stmt_inv; have_loop insert_values_shape; simpl; grow; assumption.
  - unfold parse_select in H.
    stmt_inv; have_loop select_items_shape; have parse_where_shape; simpl;
      grow; split; assumption.
  - unfold parse_delete in H.
    stmt_inv; have parse_where_shape; simpl; assumption.
  - unfold parse_update in H.
    stmt_inv; have_loop update_assignments_shape; have parse_where_shape; simpl;
      grow; split; assumption.
Qed.

Lemma program_shape fuel : forall stmts st stmts1 st1,
  program fuel stmts st = Ok stmts1 st1 ->
  Forall stmt_shape stmts -> Forall stmt_shape stmts1.
Proof.
  induction fuel as [|fuel IH]; intros stmts st stmts1 st1 H;
    cbn [program] in H; [discriminate|].
  monad_inv; try (intros; assumption);
    have_loop IH; have parse_statement_stmt_shape; intros F; grow; assumption.
Qed.

(** Every node the parser returns has the shape the productions give it:
    literals carry the tag of their payload; a select list holds identifiers
    only; a value row holds literals only; an assigned value is an identifier
    or a literal; a where-clause is an identifier, a literal or one binary
    expression over two of them, never a nested one; a data type has an
    upper-cased name and has a size only under the names VARCHAR and CHAR. *)
Theorem parse_builds_flat_nodes (tokens : list Token) (p : SQLProgram) :
  parse tokens = inr p -> Forall stmt_shape (statements p).
Proof.
  unfold parse. destruct tokens as [|t ts]; [discriminate|].
  destruct (program (fuel_of (mkState t ts)) [] (mkState t ts))
    as [stmts st1|e] eqn:Hrun; [|discriminate].
  intros H. inversion H; subst. simpl.
  eapply program_shape; [exact Hrun|constructor].
Qed.

Lemma parse_builds_flat_nodes_witness :
  Forall stmt_shape
    (statements
       (mkSQLProgram
          [DeleteStatement "T"
             (Some (BinaryExpression (Identifier "A" 1 1) "<>"
                      (Literal (VStr "x") "STRING" 1 1) 1 1)) 1 1]
          1 1)).
Proof.
  apply (parse_builds_flat_nodes
           [mkToken KEYWORD "DELETE" 1 1; mkToken KEYWORD "FROM" 1 1;
            mkToken IDENTIFIER "T" 1 1; mkToken KEYWORD "WHERE" 1 1;
            mkToken IDENTIFIER "A" 1 1; mkToken NOT_EQUALS "<>" 1 1;
            mkToken STRING "x" 1 1; mkToken EOF "" 1 1]).
  vm_compute. reflexivity.
Defined.

(** ** Error tokens and the parser *)

(** The cursor moves only past a token that was matched against types other
    than the two closing ones, which leaves [error_pending] as it was. *)
Lemma advance_pending types st u st1 :
  match_ types st = true ->
  existsb (TokenType_eqb EOF) types = false ->
  existsb (TokenType_eqb ERROR) types = false ->
  advance st = Ok u st1 ->
  error_pending st1 = error_pending st.
Proof.
  unfold match_. intros Hm He Hr H. apply advance_Ok in H. subst st1.
  unfold error_pending.
  destruct (tok_type (current_token st)) eqn:Hty;
    try (rewrite Hm in He; discriminate);
    try (rewrite Hm in Hr; discriminate);
    destruct (rest st) as [|t ts]; cbn [error_ahead current_token rest];
    rewrite ?Hty; reflexivity.
Qed.

Lemma is_keyword_match kw st :
  is_keyword kw st = true -> match_ [KEYWORD] st = true.
Proof. unfold is_keyword. intros H. apply andb_true_iff in H as [H _]. exact H. Qed.

Lemma consume_pending t msg st tok st1 :
  TokenType_eqb EOF t || TokenType_eqb ERROR t = false ->
  consume t msg st = Ok tok st1 ->
  error_pending st1 = error_pending st.
Proof.
  unfold consume, cond. intros Ht.
  destruct (match_ [t] st) eqn:Hm; [|discriminate].
  intros H. apply bind_Ok in H as (a & sa & Ha & H).
  inversion Ha; subst. apply bind_Ok in H as (u & sb & Hb & H).
  inversion H; subst.
  destruct t; try discriminate Ht;
    (eapply advance_pending; [exact Hm|reflexivity|reflexivity|exact Hb]).
Qed.

(** Collect what each step of a decomposed run does to [error_pending]. *)
Ltac pending_facts :=
  repeat match goal with
  | E : (fun _ => _) _ = true |- _ => cbv beta in E
  | E : (_ && _) = true |- _ => apply andb_true_iff in E as [? ?]
  | E : is_keyword _ _ = true |- _ => apply is_keyword_match in E
  | E : match_ ?tys ?s = true, H : advance ?s = Ok _ _ |- _ =>
      apply (advance_pending tys s _ _ E eq_refl eq_refl) in H
  | H : consume _ _ _ = Ok _ _ |- _ =>
      eapply consume_pending in H; [|reflexivity]
  | H : to_int _ _ = Ok _ _ |- _ => apply to_int_Ok in H; subst
  end.

Ltac finish_pending := pending_facts; congruence.

Lemma parse_literal_pending st e st1 :
  parse_literal st = Ok e st1 -> error_pending st1 = error_pending st.
Proof. unfold parse_literal. intros H. monad_inv; finish_pending. Qed.

Lemma parse_primary_pending st e st1 :
  parse_primary st = Ok e st1 -> error_pending st1 = error_pending st.
Proof.
  unfold parse_primary. intros H.
  monad_inv; have parse_literal_pending; finish_pending.
Qed.

Lemma parse_comparison_pending st e st1 :
  parse_comparison st = Ok e st1 -> error_pending st1 = error_pending st.
Proof.
  unfold parse_comparison. intros H.
  monad_inv; have parse_primary_pending; finish_pending.
Qed.

Lemma parse_where_pending st w st1 :
  parse_where st = Ok w st1 -> error_pending st1 = error_pending st.
Proof.
  unfold parse_where, parse_expression. intros H.
  monad_inv; have parse_comparison_pending; finish_pending.
Qed.

Lemma parse_data_type_pending st d st1 :
  parse_data_type st = Ok d st1 -> error_pending st1 = error_pending st.
Proof. unfold parse_data_type. intros H. monad_inv; finish_pending. Qed.

Lemma parse_column_definition_pending st c st1 :
  parse_column_definition st = Ok c st1 ->
  error_pending st1 = error_pending st.
Proof.
  unfold parse_column_definition. intros H.
  monad_inv; have parse_data_type_pending; finish_pending.
Qed.

Lemma column_list_pending fuel : forall columns st columns1 st1,
  column_list fuel columns st = Ok columns1 st1 ->
  error_pending st1 = error_pending st.
Proof.
  induction fuel as [|fuel IH]; intros columns st columns1 st1 H;
    cbn [column_list] in H; [discriminate|].
  monad_inv; have IH; have parse_column_definition_pending; finish_pending.
Qed.

Lemma insert_columns_pending fuel : forall columns st columns1 st1,
  insert_columns fuel columns st = Ok columns1 st1 ->
  error_pending st1 = error_pending st.
Proof.
  induction fuel as [|fuel IH]; intros columns st columns1 st1 H;
    cbn [insert_columns] in H; [discriminate|].
  monad_inv; have IH; finish_pending.
Qed.

Lemma insert_values_pending fuel : forall row st row1 st1,
  insert_values fuel row st = Ok row1 st1 ->
  error_pending st1 = error_pending st.
Proof.
  induction fuel as [|fuel IH]; intros row st row1 st1 H;
    cbn [insert_values] in H; [discriminate|].
  monad_inv; have IH; have parse_literal_pending; finish_pending.
Qed.

Lemma select_items_pending fuel : forall items st items1 st1,
  select_items fuel items st = Ok items1 st1 ->
  error_pending st1 = error_pending st.
Proof.
  induction fuel as [|fuel IH]; intros items st items1 st1 H;
    cbn [select_items] in H; [discriminate|].
  monad_inv; have IH; finish_pending.
Qed.

Lemma update_assignments_pending fuel : forall asg st asg1 st1,
  update_assignments fuel asg st = Ok asg1 st1 ->
  error_pending st1 = error_pending st.
Proof.
  induction fuel as [|fuel IH]; intros asg st asg1 st1 H;
    cbn [update_assignments] in H; [discriminate|].
  monad_inv; have IH; have parse_primary_pending; finish_pending.
Qed.

Lemma parse_statement_pending st s st1 :
  parse_statement st = Ok s st1 -> error_pending st1 = error_pending st.
Proof.
  unfold parse_statement. intros H. stmt_inv.
  - unfold parse_create_table in H.
    stmt_inv; have column_list_pending; finish_pending.
  - unfold parse_insert in H.
    stmt_inv; have insert_columns_pending; have insert_values_pending;
      finish_pending.
  - unfold parse_select in H.
    stmt_inv; have select_items_pending; have parse_where_pending;
      finish_pending.
  - unfold parse_delete in H.
    stmt_inv; have parse_where_pending; finish_pending.
  - unfold parse_update in H.
    stmt_inv; have update_assignments_pending; have parse_where_pending;
      finish_pending.
Qed.

Lemma program_pending fuel : forall stmts st stmts1 st1,
  program fuel stmts st = Ok stmts1 st1 -> error_pending st = false.
Proof.
  induction fuel as [|fuel IH]; intros stmts st stmts1 st1 H;
    cbn [program] in H; [discriminate|].
  monad_inv.
  - apply match_one in E. unfold error_pending. cbn [error_ahead].
    rewrite E. reflexivity.
  - have IH. have parse_statement_pending. finish_pending.
  - have IH. have parse_statement_pending. finish_pending.
Qed.

Lemma parsed_without_error tokens p :
  parse tokens = inr p -> error_ahead tokens = false.
Proof.
  unfold parse. destruct tokens as [|t ts]; [discriminate|].
  destruct (program (fuel_of (mkState t ts)) [] (mkState t ts))
    as [stmts st1|e] eqn:Hrun; [|discriminate].
  intros _. apply program_pending in Hrun. exact Hrun.
Qed.

Lemma error_ahead_after_body body t l :
  Forall token_well_formed body -> tok_type t = ERROR ->
  error_ahead (body ++ t :: l) = true.
Proof.
  intros Hwf Ht. induction Hwf as [|x body Hx _ IH]; cbn [app error_ahead].
  - rewrite Ht. reflexivity.
  - unfold token_well_formed in Hx.
    destruct (tok_type x); try exact IH; destruct Hx.
Qed.

(** A token list in which an error token comes before every end-of-input
    token is never parsed into a program: no statement takes an error token,
    and the main loop raises at it. *)
Theorem error_token_is_never_parsed (tokens : list Token) :
  error_ahead tokens = true -> exists e, parse tokens = inl e.
Proof.
  intros Herr. destruct (parse tokens) as [e|p] eqn:Hp.
  - exists e. reflexivity.
  - apply parsed_without_error in Hp. congruence.
Qed.

Lemma error_token_is_never_parsed_witness :
  exists e,
    parse [mkToken KEYWORD "SELECT" 1 1; mkToken IDENTIFIER "A" 1 8;
           mkToken KEYWORD "FROM" 1 10; mkToken IDENTIFIER "T" 1 15;
           mkToken ERROR "Unexpected character '#'" 1 17]
    = inl e.
Proof.
  apply (error_token_is_never_parsed
           [mkToken KEYWORD "SELECT" 1 1; mkToken IDENTIFIER "A" 1 8;
            mkToken KEYWORD "FROM" 1 10; mkToken IDENTIFIER "T" 1 15;
            mkToken ERROR "Unexpected character '#'" 1 17]).
  reflexivity.
Defined.

(** The token list a failed [tokenize] leaves behind in [self.tokens] is
    never parsed into a program: whatever the source, the parser raises on
    it. *)
Theorem failed_tokenize_is_never_parsed
    (source : string) (e : LexerError) (tokens : list Token) :
  Lexer.tokenize source = Lexer.Raised e tokens ->
  exists f, parse tokens = inl f.
Proof.
  unfold Lexer.tokenize.
  pose proof (scan_outcome_holds (S (String.length source))
                (Lexer.init source) [] ltac:(constructor)) as H.
  destruct (Lexer.scan (S (String.length source)) (Lexer.init source) [])
    as [|e0 tokens0| |]; try discriminate.
  intros Heq. inversion Heq; subst. clear Heq.
  destruct H as (_ & Hwf & Hstr).
  match goal with
  | |- exists f, parse ?l = inl f =>
      assert (Herr : error_ahead l = true);
      [|destruct (parse l) as [f|p] eqn:Hp;
        [exists f; reflexivity
        |apply parsed_without_error in Hp; congruence]]
  end.
  destruct (String.eqb (le_message e) "Unterminated string literal").
  - destruct Hstr as [body ->]. rewrite removelast_last in Hwf.
    rewrite <- app_assoc. apply error_ahead_after_body; [assumption|].
    reflexivity.
  - apply error_ahead_after_body; [assumption|reflexivity].
Qed.

Lemma failed_tokenize_is_never_parsed_witness :
  exists f,
    parse [mkToken KEYWORD "SELECT" 1 1; mkToken IDENTIFIER "A" 1 8;
           mkToken KEYWORD "FROM" 1 10; mkToken IDENTIFIER "T" 1 15;
           mkToken ERROR "Unknown operator '!'" 1 17]
    = inl f.
Proof.
  apply (failed_tokenize_is_never_parsed "select a from t !"
           (mkLexerError "Unknown operator '!'" 1 17)).
  vm_compute. reflexivity.
Defined.

(** ** The head of a statement *)

Ltac head_done :=
  match goal with
  | Hk : match_ [KEYWORD] _ = true, He : String.eqb _ _ = true |- _ =>
      apply match_one in Hk; apply String.eqb_eq in He;
      repeat split; assumption
  end.

(** A statement node is headed by the token it was parsed from: that token
    is a keyword whose upper-cased value names the kind of the node, and the
    node records the line of that token.  An INSERT, SELECT, DELETE or UPDATE
    node also records its column; a CREATE TABLE node does not: its [column]
    attribute holds the last column definition of the statement. *)
Theorem statement_starts_at_its_keyword
    (st : State) (s : Statement) (st1 : State) :
  parse_statement st = Ok s st1 ->
  tok_type (current_token st) = KEYWORD
  /\ Text.upper (tok_value (current_token st)) = stmt_keyword s
  /\ stmt_line s = tok_line (current_token st)
  /\ match s with
     | CreateTableStatement _ columns _ col =>
         exists c, last columns = Some c /\ col = ColumnNode c
     | _ => stmt_column s = ColumnNumber (tok_column (current_token st))
     end.
Proof.
  unfold parse_statement. intros H. stmt_inv.
  - unfold parse_create_table in H. stmt_inv. simpl.
    match goal with
    | |- context [last ?l] =>
        destruct (last l) as [c0|] eqn:Hlast;
        [|apply last_None in Hlast; discriminate Hlast]
    end.
    apply match_one in E. apply String.eqb_eq in E0.
    repeat split; try assumption. exists c0. split; reflexivity.
  - unfold parse_insert in H. stmt_inv; simpl; head_done.
  - unfold parse_select in H. stmt_inv; simpl; head_done.
  - unfold parse_delete in H. stmt_inv; simpl; head_done.
  - unfold parse_update in H. stmt_inv; simpl; head_done.
Qed.

Lemma statement_starts_at_its_keyword_witness :
  tok_type (mkToken KEYWORD "create" 3 5) = KEYWORD
  /\ Text.upper (tok_value (mkToken KEYWORD "create" 3 5))
     = stmt_keyword
         (CreateTableStatement "T"
            [mkColumnDef "A" (mkDataType "INT" None 3 22) 3 20;
             mkColumnDef "B" (mkDataType "CHAR" (Some 2%Z) 3 29) 3 27] 3
            (ColumnNode (mkColumnDef "B" (mkDataType "CHAR" (Some 2%Z) 3 29)
                           3 27)))
  /\ stmt_line
       (CreateTableStatement "T"
          [mkColumnDef "A" (mkDataType "INT" None 3 22) 3 20;
           mkColumnDef "B" (mkDataType "CHAR" (Some 2%Z) 3 29) 3 27] 3
          (ColumnNode (mkColumnDef "B" (mkDataType "CHAR" (Some 2%Z) 3 29)
                         3 27)))
     = tok_line (mkToken KEYWORD "create" 3 5)
  /\ exists c,
       last [mkColumnDef "A" (mkDataType "INT" None 3 22) 3 20;
             mkColumnDef "B" (mkDataType "CHAR" (Some 2%Z) 3 29) 3 27]
       = Some c
       /\ ColumnNode (mkColumnDef "B" (mkDataType "CHAR" (Some 2%Z) 3 29)
                        3 27)
          = ColumnNode c.
Proof.
  apply (statement_starts_at_its_keyword
           (mkState (mkToken KEYWORD "create" 3 5)
              [mkToken KEYWORD "TABLE" 3 12; mkToken IDENTIFIER "T" 3 18;
               mkToken LEFT_PAREN "(" 3 19; mkToken IDENTIFIER "A" 3 20;
               mkToken KEYWORD "INT" 3 22; mkToken COMMA "," 3 25;
               mkToken IDENTIFIER "B" 3 27; mkToken KEYWORD "CHAR" 3 29;
               mkToken LEFT_PAREN "(" 3 33; mkToken INTEGER "2" 3 34;
               mkToken RIGHT_PAREN ")" 3 35; mkToken RIGHT_PAREN ")" 3 36;
               mkToken EOF "" 3 37])
           (CreateTableStatement "T"
              [mkColumnDef "A" (mkDataType "INT" None 3 22) 3 20;
               mkColumnDef "B" (mkDataType "CHAR" (Some 2%Z) 3 29) 3 27] 3
              (ColumnNode (mkColumnDef "B" (mkDataType "CHAR" (Some 2%Z) 3 29)
                             3 27)))
           (mkState (mkToken EOF "" 3 37) [])).
  vm_compute. reflexivity.
Defined.

(** ** The main loop of the parser *)

Lemma program_at_eof fuel stmts st :
  tok_type (current_token st) = EOF ->
  program (S fuel) stmts st = Ok stmts st.
Proof.
  intros Hty. cbn [program]. unfold cond, match_. rewrite Hty. reflexivity.
Qed.

Lemma program_at_error fuel stmts st :
  tok_type (current_token st) = ERROR ->
  program (S fuel) stmts st =
  Fail (ParseError ("Lexical error: " +:+ tok_value (current_token st))
          (current_token st) None).
Proof.
  intros Hty. cbn [program]. unfold cond, bind, current, match_.
  rewrite Hty. reflexivity.
Qed.

Lemma program_at_other fuel stmts st :
  tok_type (current_token st) <> EOF ->
  tok_type (current_token st) <> ERROR ->
  tok_type (current_token st) <> KEYWORD ->
  program (S fuel) stmts st =
  Fail (ParseError "Expected statement" (current_token st)
          (Some "CREATE, INSERT, SELECT, DELETE, or UPDATE")).
Proof.
  intros He Hr Hk. cbn [program].
  unfold cond, bind, current, parse_statement.
  unfold cond, bind, current, match_.
  destruct (tok_type (current_token st)); try congruence; reflexivity.
Qed.

Lemma program_at_keyword fuel stmts st :
  tok_type (current_token st) = KEYWORD ->
  Text.str_in (Text.upper (tok_value (current_token st)))
    ["CREATE"; "INSERT"; "SELECT"; "DELETE"; "UPDATE"] = false ->
  program (S fuel) stmts st =
  Fail (ParseError
          ("Unsupported statement: "
           +:+ Text.upper (tok_value (current_token st)))
          (current_token st) None).
Proof.
  intros Hty Hin. cbn [program].
  unfold cond, bind, current, parse_statement.
  unfold cond, bind, current, match_. rewrite Hty. cbn [existsb orb].
  cbn [Text.str_in existsb] in Hin.
  repeat (apply orb_false_iff in Hin as [? Hin]).
  repeat match goal with
  | E : String.eqb _ _ = false |- _ => rewrite E; clear E
  end.
  reflexivity.
Qed.

(** [parse] stops at the first end-of-input token it meets where a statement
    may start, and returns the statements read so far at position 1:1;
    whatever the token list holds after that token is never looked at. *)
Theorem parse_stops_at_end_of_input
    (tokens : list Token) (st : State) (stmts : list Statement) :
  statement_start tokens st stmts ->
  tok_type (current_token st) = EOF ->
  parse tokens = inr (mkSQLProgram stmts 1 1).
Proof.
  intros Hstart Hty.
  apply statement_start_run in Hstart as (fuel & Hlt & ->).
  destruct fuel as [|fuel]; [lia|].
  rewrite (program_at_eof fuel stmts st Hty). reflexivity.
Qed.

Lemma parse_stops_at_end_of_input_witness :
  parse [mkToken EOF "" 1 1; mkToken KEYWORD "SELECT" 1 2;
         mkToken ERROR "x" 1 9]
  = inr (mkSQLProgram [] 1 1).
Proof.
  apply (parse_stops_at_end_of_input _
           (mkState (mkToken EOF "" 1 1)
              [mkToken KEYWORD "SELECT" 1 2; mkToken ERROR "x" 1 9]) []).
  - apply start_first. reflexivity.
  - reflexivity.
Defined.

(** An error token where a statement may start makes [parse] raise a
    ParseError at that token whose message is the token's value after
    the words Lexical error; the statements read before it are lost. *)
Theorem parse_reports_lexical_error
    (tokens : list Token) (st : State) (stmts : list Statement) :
  statement_start tokens st stmts ->
  tok_type (current_token st) = ERROR ->
  parse tokens =
  inl (ParseError ("Lexical error: " +:+ tok_value (current_token st))
         (current_token st) None).
Proof.
  intros Hstart Hty.
  apply statement_start_run in Hstart as (fuel & Hlt & ->).
  destruct fuel as [|fuel]; [lia|].
  rewrite (program_at_error fuel stmts st Hty). reflexivity.
Qed.

Lemma parse_reports_lexical_error_witness :
  parse [mkToken KEYWORD "DELETE" 1 1; mkToken KEYWORD "FROM" 1 8;
         mkToken IDENTIFIER "T" 1 13; mkToken SEMICOLON ";" 1 14;
         mkToken ERROR "Unexpected character '#'" 1 16; mkToken EOF "" 1 17]
  = inl (ParseError "Lexical error: Unexpected character '#'"
           (mkToken ERROR "Unexpected character '#'" 1 16) None).
Proof.
  apply (parse_reports_lexical_error _
           (mkState (mkToken ERROR "Unexpected character '#'" 1 16)
              [mkToken EOF "" 1 17])
           ([] ++ [DeleteStatement "T" None 1 1])).
  - apply (start_next _
             (mkState (mkToken KEYWORD "DELETE" 1 1)
                [mkToken KEYWORD "FROM" 1 8; mkToken IDENTIFIER "T" 1 13;
                 mkToken SEMICOLON ";" 1 14;
                 mkToken ERROR "Unexpected character '#'" 1 16;
                 mkToken EOF "" 1 17])
             [] (DeleteStatement "T" None 1 1)
             (mkState (mkToken SEMICOLON ";" 1 14)
                [mkToken ERROR "Unexpected character '#'" 1 16;
                 mkToken EOF "" 1 17])).
    + apply start_first. reflexivity.
    + reflexivity.
    + reflexivity.
  - reflexivity.
Defined.

(** Where a statement may start, a keyword other than CREATE, INSERT,
    SELECT, DELETE and UPDATE (compared after upper-casing) makes [parse]
    raise a ParseError at that token that names the upper-cased keyword as
    an unsupported statement. *)
Theorem parse_rejects_other_keywords
    (tokens : list Token) (st : State) (stmts : list Statement) :
  statement_start tokens st stmts ->
  tok_type (current_token st) = KEYWORD ->
  Text.str_in (Text.upper (tok_value (current_token st)))
    ["CREATE"; "INSERT"; "SELECT"; "DELETE"; "UPDATE"] = false ->
  parse tokens =
  inl (ParseError
         ("Unsupported statement: "
          +:+ Text.upper (tok_value (current_token st)))
         (current_token st) None).
Proof.
  intros Hstart Hty Hin.
  apply statement_start_run in Hstart as (fuel & Hlt & ->).
  destruct fuel as [|fuel]; [lia|].
  rewrite (program_at_keyword fuel stmts st Hty Hin). reflexivity.
Qed.

Lemma parse_rejects_other_keywords_witness :
  parse [mkToken KEYWORD "from" 1 1; mkToken IDENTIFIER "T" 1 6;
         mkToken EOF "" 1 7]
  = inl (ParseError "Unsupported statement: FROM"
           (mkToken KEYWORD "from" 1 1) None).
Proof.
  apply (parse_rejects_other_keywords _
           (mkState (mkToken KEYWORD "from" 1 1)
              [mkToken IDENTIFIER "T" 1 6; mkToken EOF "" 1 7]) []).
  - apply start_first. reflexivity.
  - reflexivity.
  - reflexivity.
Defined.

(** Where a statement may start, a token that is neither a keyword nor the
    end of the input nor an error token makes [parse] raise the ParseError
    saying that a statement was expected, at that token, whatever was read
    before. *)
Theorem parse_expects_a_keyword
    (tokens : list Token) (st : State) (stmts : list Statement) :
  statement_start tokens st stmts ->
  tok_type (current_token st) <> EOF ->
  tok_type (current_token st) <> ERROR ->
  tok_type (current_token st) <> KEYWORD ->
  parse tokens =
  inl (ParseError "Expected statement" (current_token st)
         (Some "CREATE, INSERT, SELECT, DELETE, or UPDATE")).
Proof.
  intros Hstart He Hr Hk.
  apply statement_start_run in Hstart as (fuel & Hlt & ->).
  destruct fuel as [|fuel]; [lia|].
  rewrite (program_at_other fuel stmts st He Hr Hk). reflexivity.
Qed.

Lemma parse_expects_a_keyword_witness :
  parse [mkToken INTEGER "42" 1 1; mkToken EOF "" 1 3]
  = inl (ParseError "Expected statement" (mkToken INTEGER "42" 1 1)
           (Some "CREATE, INSERT, SELECT, DELETE, or UPDATE")).
Proof.
  apply (parse_expects_a_keyword _
           (mkState (mkToken INTEGER "42" 1 1) [mkToken EOF "" 1 3]) []).
  - apply start_first. reflexivity.
  - discriminate.
  - discriminate.
  - discriminate.
Defined.

End ParserProperties.
